(** * XMSS signing core: WOTS+ chaining, public-key recovery and the
    XMSS signature operation

    Shallow embedding of
      - include/nil/crypto3/pubkey/xmss/xmss_wots_publickey.hpp
      - include/nil/crypto3/pubkey/xmss/xmss_signature_operation.hpp
    Integers of the C++ code are [Z] with the wrap-around of their width
    written out; byte strings are lists of 8-bit [Z]; vectors are lists
    read with [!!] and written with [<[_:=_]>]; an access the C++ code
    leaves undefined is a [fault]. *)

From Stdlib Require Import ZArith Lia Bool.
From stdpp Require Import base tactics option list.

Local Open Scope Z_scope.

(** ** Machine integers and byte strings *)

Abbreviation uint8_t := Z (only parsing).
Abbreviation secure_vector := (list uint8_t).
Abbreviation wots_keysig_t := (list secure_vector).

(** [v.size()] *)
Definition vsize {A} (v : list A) : Z := Z.of_nat (length v).

(** [size_t] is 64 bits wide, [uint32_t] 32 bits. *)
Definition SIZE_BITS : Z := 64.
Definition size_t_wrap (z : Z) : Z := z mod 2 ^ SIZE_BITS.
Definition uint32_wrap (z : Z) : Z := z mod 2 ^ 32.
Definition is_size_t (z : Z) : Prop := 0 <= z < 2 ^ SIZE_BITS.

(** ** Outcomes

    The first four faults are the typed errors of the design (section 7
    of the specification); [OutOfBounds], [BufferOverread] and
    [ShiftTooWide] make explicit what C++ leaves undefined: [v[i]] with
    [i >= v.size()], [xor_buf] reading past the end of its input, and
    [1 << j] for [j] beyond the width of [int].  [OutOfFuel] belongs to
    the loop combinator only. *)
Inductive fault : Type :=
| LeafExhausted
| InvalidOid
| InvalidSignatureLength
| HashUnavailable
| OutOfBounds
| BufferOverread
| ShiftTooWide
| OutOfFuel.

Inductive outcome (A : Type) : Type :=
| Ok (a : A)
| Err (e : fault).
Arguments Ok {A} a.
Arguments Err {A} e.

#[global] Instance outcome_ret : MRet outcome := fun A a => Ok a.
#[global] Instance outcome_bind : MBind outcome := fun A B f m =>
  match m with
  | Ok a => f a
  | Err e => Err e
  end.
#[global] Instance outcome_fmap : FMap outcome := fun A B f m =>
  match m with
  | Ok a => Ok (f a)
  | Err e => Err e
  end.

#[global] Instance fault_eq_dec : EqDecision fault.
Proof. solve_decision. Defined.

(** [v[i]] on a vector: undefined beyond the size. *)
Definition at_index {A} (v : list A) (i : Z) : outcome A :=
  if (0 <=? i) && (i <? vsize v) then
    match v !! Z.to_nat i with
    | Some x => Ok x
    | None => Err OutOfBounds
    end
  else Err OutOfBounds.

(** [v[i] = x] on a vector. *)
Definition set_index {A} (v : list A) (i : Z) (x : A) : outcome (list A) :=
  if (0 <=? i) && (i <? vsize v) then Ok (<[Z.to_nat i := x]> v)
  else Err OutOfBounds.

(** [for (size_t i = start; cond(i); i++) body]: the loop of the source,
    with fuel for the number of times the condition is evaluated; [i++]
    is the increment of a [size_t]. *)
Fixpoint for_loop {S : Type} (fuel : nat) (cond : Z -> bool)
    (body : Z -> S -> outcome S) (i : Z) (s : S) : outcome S :=
  match fuel with
  | O => Err OutOfFuel
  | Datatypes.S fuel' =>
      if cond i then
        s' ← body i s; for_loop fuel' cond body (size_t_wrap (i + 1)) s'
      else Ok s
  end.

(** The body run once for each index of a list, in order. *)
Fixpoint for_each {S : Type} (body : Z -> S -> outcome S) (l : list Z) (s : S)
    : outcome S :=
  match l with
  | [] => Ok s
  | i :: l' => s' ← body i s; for_each body l' s'
  end.

(** ** Byte-string helpers *)

(** Modelled from the spec: xmss_tools.hpp is not under src/.
    [toByte x k] is the big-endian k-byte representation of the integer
    [x]. *)
Definition toByte (x k : Z) : secure_vector :=
  (fun j => (x / 256 ^ (k - 1 - j)) mod 256) <$> seqZ 0 k.

(** Modelled from the spec: [XMSS_Tools::concat(target, src, len)] of
    xmss_tools.hpp (not under src/) appends [toByte src len] to
    [target]. *)
Definition concat (target : secure_vector) (src len : Z) : secure_vector :=
  target ++ toByte src len.

(** [xor_buf(out, in, length)] of the utilities library:
    [out[i] ^= in[i]] for [i < length].  Reading [in] or writing [out]
    beyond its size is undefined. *)
Definition xor_buf (out inp : secure_vector) (length : Z) : outcome secure_vector :=
  if (0 <=? length) && (length <=? vsize out) then
    if length <=? vsize inp then
      Ok (zip_with Z.lxor (take (Z.to_nat length) out) inp
            ++ drop (Z.to_nat length) out)
    else Err BufferOverread
  else Err OutOfBounds.

(** ** XMSS_Address *)

(** Modelled from the spec: xmss_address.hpp is not under src/.  The
    three address types, with their codes 0, 1, 2. *)
Inductive Address_Type : Type :=
| OTS_Hash_Address
| LTree_Address
| Hash_Tree_Address.

Definition Address_Type_code (t : Address_Type) : Z :=
  match t with
  | OTS_Hash_Address => 0
  | LTree_Address => 1
  | Hash_Tree_Address => 2
  end.

(** Modelled from the spec: the key-and-mask word of xmss_address.hpp,
    0 for Key_Mode and 1 for Mask_Mode. *)
Inductive Key_Mask : Type :=
| Key_Mode
| Mask_Mode.

Definition Key_Mask_code (m : Key_Mask) : Z :=
  match m with
  | Key_Mode => 0
  | Mask_Mode => 1
  end.

(** Modelled from the spec: the address of xmss_address.hpp, eight
    32-bit words; words 0..2 are the layer and tree address, word 3 the
    type, words 4..7 depend on the type (OTS: ots, chain, hash address
    and key-and-mask). *)
Record XMSS_Address : Type := mkAddress {
  adrs_layer : Z;
  adrs_tree_hi : Z;
  adrs_tree_lo : Z;
  adrs_type : Z;
  adrs_w4 : Z;
  adrs_w5 : Z;
  adrs_w6 : Z;
  adrs_w7 : Z
}.

(** Modelled from the spec: the default-constructed address
    [XMSS_Address adrs;] is all zero. *)
Definition zero_address : XMSS_Address := mkAddress 0 0 0 0 0 0 0 0.

(** Modelled from the spec: [set_type] writes word 3 and zeroes words
    4..7. *)
Definition set_type (t : Address_Type) (a : XMSS_Address) : XMSS_Address :=
  mkAddress (adrs_layer a) (adrs_tree_hi a) (adrs_tree_lo a)
            (Address_Type_code t) 0 0 0 0.

(** Modelled from the spec: [set_ots_address] writes word 4; the
    argument is a [uint32_t]. *)
Definition set_ots_address (i : Z) (a : XMSS_Address) : XMSS_Address :=
  mkAddress (adrs_layer a) (adrs_tree_hi a) (adrs_tree_lo a) (adrs_type a)
            (uint32_wrap i) (adrs_w5 a) (adrs_w6 a) (adrs_w7 a).

(** Modelled from the spec: [set_chain_address] writes word 5. *)
Definition set_chain_address (j : Z) (a : XMSS_Address) : XMSS_Address :=
  mkAddress (adrs_layer a) (adrs_tree_hi a) (adrs_tree_lo a) (adrs_type a)
            (adrs_w4 a) (uint32_wrap j) (adrs_w6 a) (adrs_w7 a).

(** Modelled from the spec: [set_hash_address] writes word 6. *)
Definition set_hash_address (k : Z) (a : XMSS_Address) : XMSS_Address :=
  mkAddress (adrs_layer a) (adrs_tree_hi a) (adrs_tree_lo a) (adrs_type a)
            (adrs_w4 a) (adrs_w5 a) (uint32_wrap k) (adrs_w7 a).

(** Modelled from the spec: [set_key_mask_mode] writes word 7. *)
Definition set_key_mask_mode (m : Key_Mask) (a : XMSS_Address) : XMSS_Address :=
  mkAddress (adrs_layer a) (adrs_tree_hi a) (adrs_tree_lo a) (adrs_type a)
            (adrs_w4 a) (adrs_w5 a) (adrs_w6 a) (Key_Mask_code m).

(** Modelled from the spec: [adrs.bytes()] is the big-endian
    concatenation of the eight words. *)
Definition bytes (a : XMSS_Address) : secure_vector :=
  toByte (adrs_layer a) 4 ++ toByte (adrs_tree_hi a) 4
  ++ toByte (adrs_tree_lo a) 4 ++ toByte (adrs_type a) 4
  ++ toByte (adrs_w4 a) 4 ++ toByte (adrs_w5 a) 4
  ++ toByte (adrs_w6 a) 4 ++ toByte (adrs_w7 a) 4.

(** The OTS and chain context of an address: everything but the hash
    address (word 6) and the key-and-mask word (word 7). *)
Definition same_chain_context (a b : XMSS_Address) : Prop :=
  adrs_layer a = adrs_layer b /\ adrs_tree_hi a = adrs_tree_hi b
  /\ adrs_tree_lo a = adrs_tree_lo b /\ adrs_type a = adrs_type b
  /\ adrs_w4 a = adrs_w4 b /\ adrs_w5 a = adrs_w5 b.

(** The context of an OTS address that [pub_key_from_signature] leaves
    alone: everything but the chain address, the hash address and the
    key-and-mask word. *)
Definition same_ots_context (a b : XMSS_Address) : Prop :=
  adrs_layer a = adrs_layer b /\ adrs_tree_hi a = adrs_tree_hi b
  /\ adrs_tree_lo a = adrs_tree_lo b /\ adrs_type a = adrs_type b
  /\ adrs_w4 a = adrs_w4 b.

(** ** Parameters *)

(** Modelled from the spec: the hash functions of the supported
    parameter sets (the table of OIDs is not under src/). *)
Inductive hash_id : Type :=
| SHA2_256
| SHA2_512
| SHAKE128
| SHAKE256.

(** Modelled from the spec: the tree heights of the supported
    parameter sets, 10, 16 and 20. *)
Inductive height_id : Type :=
| H10
| H16
| H20.

(** Modelled from the spec: an OID names a hash function and a tree
    height, and determines every other parameter. *)
Record xmss_algorithm_t : Type := mkOid {
  oid_hash : hash_id;
  oid_height : height_id
}.

(** Modelled from the spec: XMSS_WOTS_Parameters of
    xmss_wots_parameters.hpp (not under src/): hash function, element
    size [n], Winternitz parameter [w], [len_1] and [len_2]. *)
Record XMSS_WOTS_Parameters : Type := mkWotsParams {
  hash_function : hash_id;
  element_size : Z;
  wots_parameter : Z;
  len_1 : Z;
  len_2 : Z
}.

(** Modelled from the spec: [len = len_1 + len_2]. *)
Definition len (p : XMSS_WOTS_Parameters) : Z := len_1 p + len_2 p.

(** Modelled from the spec: [log2 w], the bits of a base-w digit. *)
Definition lg_w (p : XMSS_WOTS_Parameters) : Z := Z.log2 (wots_parameter p).

(** Modelled from the spec: XMSS_Parameters of xmss_parameters.hpp (not
    under src/): the WOTS+ parameters and the tree height. *)
Record XMSS_Parameters : Type := mkXmssParams {
  xmss_wots : XMSS_WOTS_Parameters;
  tree_height : Z
}.

(** Modelled from the spec: the element size of an XMSS parameter set
    is the one of its WOTS+ parameters. *)
Definition xmss_element_size (p : XMSS_Parameters) : Z :=
  element_size (xmss_wots p).

(** Modelled from the spec: [n] is the output length of the hash. *)
Definition hash_output_length (h : hash_id) : Z :=
  match h with
  | SHA2_256 => 32
  | SHA2_512 => 64
  | SHAKE128 => 32
  | SHAKE256 => 64
  end.

Definition height_value (h : height_id) : Z :=
  match h with
  | H10 => 10
  | H16 => 16
  | H20 => 20
  end.

Definition ceil_div (a b : Z) : Z := (a + b - 1) / b.

(** Modelled from the spec: the WOTS+ parameters of a supported set,
    [w = 16], [len_1 = ceil(8n / log2 w)],
    [len_2 = floor(log2(len_1 * (w - 1)) / log2 w) + 1]. *)
Definition wots_parameters_of (h : hash_id) : XMSS_WOTS_Parameters :=
  let n := hash_output_length h in
  let w := 16 in
  let l1 := ceil_div (8 * n) (Z.log2 w) in
  let l2 := Z.log2 (l1 * (w - 1)) / Z.log2 w + 1 in
  mkWotsParams h n w l1 l2.

(** Modelled from the spec: the parameters of a supported OID. *)
Definition xmss_parameters_of (oid : xmss_algorithm_t) : XMSS_Parameters :=
  mkXmssParams (wots_parameters_of (oid_hash oid))
               (height_value (oid_height oid)).

(** The parameter set of the scenarios: n = 32, w = 16, len = 67, h = 10. *)
Definition XMSS_SHA2_10_256 : xmss_algorithm_t := mkOid SHA2_256 H10.

(** ** base_w and the checksum *)

(** Modelled from the spec: XMSS_WOTS_Parameters::base_w is not under
    src/.  [base_w X out_len] unpacks [X] into [out_len] base-w digits,
    most significant bits first (the standard algorithm: a byte is
    fetched whenever no bits are left); a byte beyond the end of [X]
    reads as 0, the spec calls the function total and does not say
    more. *)
Fixpoint base_w_loop (p : XMSS_WOTS_Parameters) (X : secure_vector)
    (out_len : nat) (inp total bits : Z) : secure_vector :=
  match out_len with
  | O => []
  | S k =>
      let '(inp, total, bits) :=
        if bits =? 0 then (inp + 1, nth (Z.to_nat inp) X 0, 8)
        else (inp, total, bits) in
      let bits := bits - lg_w p in
      Z.land (Z.shiftr total bits) (wots_parameter p - 1)
        :: base_w_loop p X k inp total bits
  end.

(** Modelled from the spec: [base_w(X, out_len)], the loop above from
    an empty bit buffer. *)
Definition base_w (p : XMSS_WOTS_Parameters) (X : secure_vector) (out_len : Z)
    : secure_vector :=
  base_w_loop p X (Z.to_nat out_len) 0 0 0.

(** Modelled from the spec: the checksum [C = sum (w - 1 - m_i)] over
    the message digits. *)
Definition checksum (p : XMSS_WOTS_Parameters) (data : secure_vector) : Z :=
  foldr (fun m acc => (wots_parameter p - 1 - m) + acc) 0 data.

(** Modelled from the spec: XMSS_WOTS_Parameters::append_checksum is
    not under src/.  [C] is shifted left by
    [(8 - ((len_2 * log2 w) mod 8)) mod 8] bits, encoded on
    [ceil(len_2 * log2 w / 8)] bytes, unpacked into [len_2] digits and
    appended. *)
Definition append_checksum (p : XMSS_WOTS_Parameters) (data : secure_vector)
    : secure_vector :=
  let csum := checksum p data in
  let shift := (8 - ((len_2 p * lg_w p) mod 8)) mod 8 in
  let len_2_bytes := ceil_div (len_2 p * lg_w p) 8 in
  data ++ base_w p (toByte (Z.shiftl csum shift) len_2_bytes) (len_2 p).

(** ** The hash provider and XMSS_Hash *)

(** The hash primitive is an external collaborator: any function to
    [n]-byte strings. *)
Class HashProvider (n : Z) : Type := {
  hash_fn : secure_vector -> secure_vector;
  hash_fn_size : forall m, vsize (hash_fn m) = n
}.

(** Modelled from the spec: XMSS_Hash of xmss_hash.hpp (not under
    src/).  The state of the object is that of its incremental H_msg
    hasher: the byte string absorbed so far. *)
Record XMSS_Hash : Type := mkHash {
  m_msg_hash : secure_vector
}.

Module Hash.
Section Ops.
Context {n : Z} {HP : HashProvider n}.

(** Modelled from the spec: [F(key, m) = Hash(toByte(0, n) || key || m)];
    [hash.f(result, key, data)] stores it in [result]. *)
Definition f (key data : secure_vector) : secure_vector :=
  hash_fn (toByte 0 n ++ key ++ data).

(** Modelled from the spec:
    [PRF(key, m) = Hash(toByte(3, n) || key || m)]. *)
Definition prf (key data : secure_vector) : secure_vector :=
  hash_fn (toByte 3 n ++ key ++ data).

(** Modelled from the spec: [h_msg_init(r, root, idx)] opens the H_msg
    stream on [toByte(2, n) || r || root || idx]. *)
Definition h_msg_init (h : XMSS_Hash) (randomness root index_bytes : secure_vector)
    : XMSS_Hash :=
  mkHash (toByte 2 n ++ randomness ++ root ++ index_bytes).

(** Modelled from the spec: [h_msg_update(bytes)] feeds the stream. *)
Definition h_msg_update (h : XMSS_Hash) (data : secure_vector) : XMSS_Hash :=
  mkHash (m_msg_hash h ++ data).

(** Modelled from the spec: [h_msg_final()] returns the n-byte hash of
    the stream; the hasher starts afresh. *)
Definition h_msg_final (h : XMSS_Hash) : secure_vector * XMSS_Hash :=
  (hash_fn (m_msg_hash h), mkHash []).

End Ops.
End Hash.

(** ** XMSS_WOTS_PublicKey *)

Record XMSS_WOTS_PublicKey : Type := mkWotsPublicKey {
  m_wots_params : XMSS_WOTS_Parameters;
  m_key : wots_keysig_t;
  m_public_seed : secure_vector
}.

Definition key_data (k : XMSS_WOTS_PublicKey) : wots_keysig_t := m_key k.

(** [std::vector::operator==]: same size and equal elements. *)
Fixpoint vector_eqb {A} (eqb : A -> A -> bool) (u v : list A) : bool :=
  match u, v with
  | [], [] => true
  | x :: u', y :: v' => eqb x y && vector_eqb eqb u' v'
  | _, _ => false
  end.

Definition op_eq (this key : XMSS_WOTS_PublicKey) : bool :=
  vector_eqb (vector_eqb Z.eqb) (m_key this) (m_key key).

Definition op_ne (this key : XMSS_WOTS_PublicKey) : bool :=
  negb (op_eq this key).

Section WOTS.
Context (wp : XMSS_WOTS_Parameters) {HP : HashProvider (element_size wp)}.

(** One round of the loop of [chain]. *)
Definition chain_step (seed : secure_vector) (i : Z)
    (st : secure_vector * XMSS_Address) : outcome (secure_vector * XMSS_Address) :=
  let '(result, adrs) := st in
  let adrs := set_hash_address i adrs in
  let adrs := set_key_mask_mode Mask_Mode adrs in
  result ← xor_buf result (Hash.prf seed (bytes adrs)) (vsize result);
  let adrs := set_key_mask_mode Key_Mode adrs in
  let result := Hash.f (Hash.prf seed (bytes adrs)) result in
  Ok (result, adrs).

(** [i < (start_idx + steps) && i < m_wots_params.wots_parameter()] *)
Definition chain_cond (start_idx steps : Z) (i : Z) : bool :=
  (i <? size_t_wrap (start_idx + steps)) && (i <? wots_parameter wp).

(** Algorithm 2, the chaining function; [result] and [adrs] are passed
    by reference and come back in the outcome. *)
Definition chain (result : secure_vector) (start_idx steps : Z)
    (adrs : XMSS_Address) (seed : secure_vector)
    : outcome (secure_vector * XMSS_Address) :=
  for_loop (S (Z.to_nat (wots_parameter wp - start_idx)))
           (chain_cond start_idx steps) (chain_step seed) start_idx
           (result, adrs).

(** The string [chain] leaves in [result]. *)
Definition chain_value (x : secure_vector) (start_idx steps : Z)
    (adrs : XMSS_Address) (seed : secure_vector) : outcome secure_vector :=
  fst <$> chain x start_idx steps adrs seed.

(** The digits [b] of a message: [base_w] then [append_checksum]. *)
Definition message_digits (msg : secure_vector) : secure_vector :=
  append_checksum wp (base_w wp msg (len_1 wp)).

(** One round of the loop of [pub_key_from_signature]. *)
Definition pkfs_body (msg_digest seed : secure_vector) (i : Z)
    (st : wots_keysig_t * XMSS_Address) : outcome (wots_keysig_t * XMSS_Address) :=
  let '(result, adrs) := st in
  let adrs := set_chain_address i adrs in
  x ← at_index result i;
  d ← at_index msg_digest i;
  '(x', adrs') ← chain x d (size_t_wrap (wots_parameter wp - 1 - d)) adrs seed;
  Ok (<[Z.to_nat i := x']> result, adrs').

(** Algorithm 6, WOTS_pkFromSig. *)
Definition pub_key_from_signature (msg : secure_vector) (sig : wots_keysig_t)
    (adrs : XMSS_Address) (seed : secure_vector)
    : outcome (wots_keysig_t * XMSS_Address) :=
  let msg_digest := base_w wp msg (len_1 wp) in
  let msg_digest := append_checksum wp msg_digest in
  let result := sig in
  for_loop (S (Z.to_nat (len wp))) (fun i => i <? len wp)
           (pkfs_body msg_digest seed) 0 (result, adrs).

(** The constructor from a message and its signature. *)
Definition XMSS_WOTS_PublicKey_from_signature (msg : secure_vector)
    (sig : wots_keysig_t) (adrs : XMSS_Address) (public_seed : secure_vector)
    : outcome (XMSS_WOTS_PublicKey * XMSS_Address) :=
  '(key, adrs') ← pub_key_from_signature msg sig adrs public_seed;
  Ok (mkWotsPublicKey wp key public_seed, adrs').

End WOTS.

(** ** XMSS_PrivateKey *)

(** Modelled from the spec: XMSS_PrivateKey of xmss_privatekey.hpp (not
    under src/).  The key holds the master seed S_XMSS, the PRF seed
    SK_PRF, the public seed, the root and the monotonic leaf counter;
    its parameter set is the one the operations below are instantiated
    with. *)
Record XMSS_PrivateKey : Type := mkPrivateKey {
  private_seed : secure_vector;
  prf : secure_vector;
  public_seed : secure_vector;
  root : secure_vector;
  unused_leaf_index : Z
}.

(** Modelled from the spec: the leaf counter is the only part of the
    key that changes. *)
Definition set_unused_leaf_index (idx : Z) (k : XMSS_PrivateKey) : XMSS_PrivateKey :=
  mkPrivateKey (private_seed k) (prf k) (public_seed k) (root k) idx.

(** Modelled from the spec: [reserve_unused_leaf_index] of
    xmss_privatekey.hpp (not under src/) advances the counter and
    returns the index it held; it fails with LeafExhausted when no index
    is left, that is when 2^h indices have been used. *)
Definition reserve_unused_leaf_index (xp : XMSS_Parameters) (k : XMSS_PrivateKey)
    : outcome Z * XMSS_PrivateKey :=
  let idx := unused_leaf_index k in
  let k' := set_unused_leaf_index (idx + 1) k in
  if 2 ^ tree_height xp <=? idx then (Err LeafExhausted, k') else (Ok idx, k').

(** Modelled from the spec: [tree_hash(start, target_height, ADRS)] of
    the private key returns the n-byte Merkle node of that height over
    the leaves from [start]; it works on an address of its own, so the
    caller's address is passed by value.  The leaf generation behind it
    (WOTS+ public keys, ltree, RAND_HASH) is not under src/. *)
Class TreeHash : Type :=
  tree_hash : XMSS_PrivateKey -> Z -> Z -> XMSS_Address -> secure_vector.

Record TreeSignature : Type := mkTreeSignature {
  m_ots_sig : wots_keysig_t;
  m_auth_path : wots_keysig_t
}.

(** Modelled from the spec: XMSS_Signature of xmss_signature.hpp (not
    under src/), the triple [(i, r, (wots_sig, auth_path))]. *)
Record XMSS_Signature : Type := mkSignature {
  sig_leaf_idx : Z;
  sig_randomness : secure_vector;
  sig_tree_sig : TreeSignature
}.

(** Modelled from the spec: [XMSS_Signature::bytes()] serializes the
    signature as [i (4 bytes, big-endian) || r || wots_sig || auth_path]. *)
Definition XMSS_Signature_bytes (s : XMSS_Signature) : secure_vector :=
  toByte (sig_leaf_idx s) 4 ++ sig_randomness s
  ++ mjoin (m_ots_sig (sig_tree_sig s))
  ++ mjoin (m_auth_path (sig_tree_sig s)).

(** ** XMSS_Signature_Operation *)

Record XMSS_Signature_Operation : Type := mkSigner {
  m_priv_key : XMSS_PrivateKey;
  m_randomness : secure_vector;
  m_leaf_idx : Z;
  m_is_initialized : bool;
  m_hash : XMSS_Hash
}.

(** The constructor. *)
Definition XMSS_Signature_Operation_new (private_key : XMSS_PrivateKey)
    : XMSS_Signature_Operation :=
  mkSigner private_key [] 0 false (mkHash []).

(** [1 << j] on [int]. *)
Definition int_shl1 (j : Z) : outcome Z :=
  if (0 <=? j) && (j <? 31) then Ok (Z.shiftl 1 j) else Err ShiftTooWide.

Section Signer.
Context (xp : XMSS_Parameters) {HP : HashProvider (xmss_element_size xp)}
        {TH : TreeHash}.

(** Modelled from the spec: one round of WOTS+ sign
    (xmss_wots_privatekey.hpp is not under src/).  chain_address <- j;
    the secret element is
    [PRF(S_XMSS, ADRS with hash_address = 0, key_and_mask = 0)];
    [sig[j] <- chain(priv[j], 0, b[j], ADRS, SEED)]. *)
Definition wots_sign_body (k : XMSS_PrivateKey) (b : secure_vector) (j : Z)
    (st : wots_keysig_t * XMSS_Address) : outcome (wots_keysig_t * XMSS_Address) :=
  let '(sig, adrs) := st in
  let adrs := set_chain_address j adrs in
  let priv_j :=
    Hash.prf (private_seed k)
             (bytes (set_key_mask_mode Key_Mode (set_hash_address 0 adrs))) in
  d ← at_index b j;
  '(x, adrs') ← chain (xmss_wots xp) priv_j 0 d adrs (public_seed k);
  Ok (sig ++ [x], adrs').

(** Modelled from the spec: WOTS+ sign of the WOTS+ private key at the
    leaf named by [adrs] (type OTS, ots_address = i), the round above
    for each [j] in [0, len) on the digits [b] of the message. *)
Definition wots_sign (k : XMSS_PrivateKey) (msg : secure_vector)
    (adrs : XMSS_Address) : outcome (wots_keysig_t * XMSS_Address) :=
  let b := message_digits (xmss_wots xp) msg in
  for_loop (S (Z.to_nat (len (xmss_wots xp))))
           (fun j => j <? len (xmss_wots xp))
           (wots_sign_body k b) 0 ([], adrs).

(** One round of the loop of [build_auth_path]; [leaf_idx / (1 << j)]
    and [k * (1 << j)] are [size_t] operations. *)
Definition auth_path_body (priv_key : XMSS_PrivateKey) (leaf_idx : Z)
    (adrs : XMSS_Address) (j : Z) (auth_path : wots_keysig_t)
    : outcome wots_keysig_t :=
  p ← int_shl1 j;
  let k := Z.lxor (leaf_idx / p) 1 in
  set_index auth_path j (tree_hash priv_key (size_t_wrap (k * p)) j adrs).

(** The authentication path of the leaf [m_leaf_idx]. *)
Definition build_auth_path (this : XMSS_Signature_Operation)
    (priv_key : XMSS_PrivateKey) (adrs : XMSS_Address)
    : outcome (wots_keysig_t * XMSS_Address) :=
  let auth_path := replicate (Z.to_nat (tree_height xp)) [] in
  let adrs := set_type Hash_Tree_Address adrs in
  auth_path ← for_loop (S (Z.to_nat (tree_height xp)))
                       (fun j => j <? tree_height xp)
                       (auth_path_body priv_key (m_leaf_idx this) adrs)
                       0 auth_path;
  Ok (auth_path, adrs).

(** Algorithm 11, treeSig. *)
Definition generate_tree_signature (this : XMSS_Signature_Operation)
    (msg : secure_vector) (xmss_priv_key : XMSS_PrivateKey) (adrs : XMSS_Address)
    : outcome (TreeSignature * XMSS_Address) :=
  '(auth_path, adrs) ← build_auth_path this xmss_priv_key adrs;
  let adrs := set_type OTS_Hash_Address adrs in
  let adrs := set_ots_address (m_leaf_idx this) adrs in
  '(sig_ots, adrs) ← wots_sign xmss_priv_key msg adrs;
  Ok (mkTreeSignature sig_ots auth_path, adrs).

(** Algorithm 12, XMSS_sign: the private overload of [sign]. *)
Definition sign_msg (this : XMSS_Signature_Operation) (msg_hash : secure_vector)
    (xmss_priv_key : XMSS_PrivateKey) : outcome XMSS_Signature :=
  let adrs := zero_address in
  '(ts, _) ← generate_tree_signature this msg_hash xmss_priv_key adrs;
  Ok (mkSignature (m_leaf_idx this) (m_randomness this) ts).

(** The member functions below change the object; they take it and give
    it back next to their outcome.  An exception leaves the object as it
    was when it was thrown. *)
Definition initialize (this : XMSS_Signature_Operation)
    : outcome unit * XMSS_Signature_Operation :=
  if m_is_initialized this then (Ok (), this)
  else
    let index_bytes : secure_vector := [] in
    match reserve_unused_leaf_index xp (m_priv_key this) with
    | (Err e, key) =>
        (Err e, mkSigner key (m_randomness this) (m_leaf_idx this)
                         (m_is_initialized this) (m_hash this))
    | (Ok leaf_idx, key) =>
        let index_bytes := concat index_bytes leaf_idx 32 in
        let randomness := Hash.prf (prf key) index_bytes in
        let index_bytes : secure_vector := [] in
        let index_bytes := concat index_bytes leaf_idx (xmss_element_size xp) in
        let hash := Hash.h_msg_init (n := xmss_element_size xp) (m_hash this)
                                    randomness (root key) index_bytes in
        (Ok (), mkSigner key randomness leaf_idx true hash)
    end.

Definition update (msg : secure_vector) (this : XMSS_Signature_Operation)
    : outcome unit * XMSS_Signature_Operation :=
  match initialize this with
  | (Err e, this) => (Err e, this)
  | (Ok _, this) =>
      (Ok (), mkSigner (m_priv_key this) (m_randomness this) (m_leaf_idx this)
                       (m_is_initialized this)
                       (Hash.h_msg_update (m_hash this) msg))
  end.

(** [sign(RandomNumberGenerator &)]: the generator is passed by reference
    and comes back next to the outcome. *)
Definition sign {RandomNumberGenerator : Type} (rng : RandomNumberGenerator)
    (this : XMSS_Signature_Operation)
    : outcome secure_vector * XMSS_Signature_Operation * RandomNumberGenerator :=
  match initialize this with
  | (Err e, this) => (Err e, this, rng)
  | (Ok _, this) =>
      let '(msg_hash, hash) := Hash.h_msg_final (m_hash this) in
      let this := mkSigner (m_priv_key this) (m_randomness this)
                           (m_leaf_idx this) (m_is_initialized this) hash in
      match sign_msg this msg_hash (m_priv_key this) with
      | Err e => (Err e, this, rng)
      | Ok sig =>
          let signature := XMSS_Signature_bytes sig in
          (Ok signature,
           mkSigner (m_priv_key this) (m_randomness this) (m_leaf_idx this)
                    false (m_hash this),
           rng)
      end
  end.

End Signer.

(** ** Well-formed parameter records *)

(** The fields are [size_t] values and the Winternitz parameter is at
    least 1. *)
Definition wots_params_ok (p : XMSS_WOTS_Parameters) : Prop :=
  0 <= element_size p /\ 1 <= wots_parameter p < 2 ^ SIZE_BITS
  /\ 0 <= len_1 p /\ 0 <= len_2 p /\ len p < 2 ^ SIZE_BITS.

(** The tree height is small enough for [1 << j] on [int]. *)
Definition xmss_params_ok (p : XMSS_Parameters) : Prop :=
  wots_params_ok (xmss_wots p) /\ 0 <= tree_height p <= 31.

#[global] Instance is_size_t_dec z : Decision (is_size_t z).
Proof. unfold is_size_t. apply _. Defined.

#[global] Instance wots_params_ok_dec p : Decision (wots_params_ok p).
Proof. unfold wots_params_ok. apply _. Defined.

#[global] Instance xmss_params_ok_dec p : Decision (xmss_params_ok p).
Proof. unfold xmss_params_ok. apply _. Defined.

(** A base-w digit. *)
Definition is_digit (p : XMSS_WOTS_Parameters) (d : Z) : Prop :=
  0 <= d <= wots_parameter p - 1.

(** The node [build_auth_path] stores at level [j], with the start index
    as the source computes it. *)
Definition auth_node {TH : TreeHash} (key : XMSS_PrivateKey) (leaf_idx : Z)
    (adrs : XMSS_Address) (j : Z) : secure_vector :=
  tree_hash key (size_t_wrap (Z.lxor (leaf_idx / 2 ^ j) 1 * 2 ^ j)) j adrs.

(** A buffer holding only zero bytes (an empty one included). *)
Definition zeroized (v : secure_vector) : Prop := Forall (fun b => b = 0) v.

(** ** Test doubles

    A stand-in for the external hash primitive, a stand-in for the
    tree hash of the private key, and the key of the scenarios
    (S_XMSS = 00..00, SK_PRF = 01..01, SEED = 02..02) at
    XMSS-SHA2_10_256. *)
Definition toy_hash (n : Z) (m : secure_vector) : secure_vector :=
  let s := foldr Z.add (vsize m) m in
  (fun j => (s + 7 * j + 1) mod 256) <$> seqZ 0 n.

Definition toy_provider (n : Z) (Hn : 0 <= n) : HashProvider n.
Proof.
  refine {| hash_fn := toy_hash n |}.
  intros m. unfold toy_hash, vsize. rewrite length_fmap, length_seqZ. lia.
Defined.

Definition toy_tree_hash (n : Z) : TreeHash :=
  fun k start height adrs =>
    toy_hash n (toByte start 8 ++ toByte height 8 ++ bytes adrs ++ private_seed k).

Definition test_wots : XMSS_WOTS_Parameters := wots_parameters_of SHA2_256.
Definition test_xmss : XMSS_Parameters := xmss_parameters_of XMSS_SHA2_10_256.

#[global] Instance test_provider : HashProvider (element_size test_wots) :=
  toy_provider 32 ltac:(lia).

#[global] Instance test_tree_hash : TreeHash := toy_tree_hash 32.

Definition test_key : XMSS_PrivateKey :=
  mkPrivateKey (replicate 32 0) (replicate 32 1) (replicate 32 2)
               (replicate 32 3) 0.

(** The same key with all 2^10 leaf indices used. *)
Definition exhausted_key : XMSS_PrivateKey :=
  set_unused_leaf_index 1024 test_key.

Definition test_seed : secure_vector := replicate 32 2.

(** A signature of [len] strings of [n] bytes. *)
Definition test_sig : wots_keysig_t :=
  (fun j => replicate 32 (j mod 256)) <$> seqZ 0 67.

(** ** Further members of the two classes *)

(** [set_public_seed(public_seed)] *)
Definition set_public_seed (public_seed : secure_vector)
    (this : XMSS_WOTS_PublicKey) : XMSS_WOTS_PublicKey :=
  mkWotsPublicKey (m_wots_params this) (m_key this) public_seed.

(** [set_key_data(key_data)] *)
Definition set_key_data (key_data : wots_keysig_t)
    (this : XMSS_WOTS_PublicKey) : XMSS_WOTS_PublicKey :=
  mkWotsPublicKey (m_wots_params this) key_data (m_public_seed this).

(** The first leaf [k * (1 << j)] of the subtree [build_auth_path] asks
    [tree_hash] for at level [j], for the leaf [i]. *)
Definition sibling_start (i j : Z) : Z := Z.lxor (i / 2 ^ j) 1 * 2 ^ j.

(** Modelled from the spec: the secret string [j] of the WOTS+ key of
    the leaf named by [adrs], as WOTS+ sign derives it:
    [PRF(S_XMSS, ADRS with chain_address = j, hash_address = 0,
    key_and_mask = 0)]. *)
Definition wots_secret (xp : XMSS_Parameters)
    {HP : HashProvider (xmss_element_size xp)} (k : XMSS_PrivateKey)
    (adrs : XMSS_Address) (j : Z) : secure_vector :=
  Hash.prf (private_seed k)
           (bytes (set_key_mask_mode Key_Mode
                     (set_hash_address 0 (set_chain_address j adrs)))).

(** * Theorems *)

(** ** Loops *)

Lemma size_t_wrap_small z : 0 <= z < 2 ^ SIZE_BITS -> size_t_wrap z = z.
Proof. intros. unfold size_t_wrap. apply Z.mod_small. assumption. Qed.

Lemma size_t_wrap_range z : 0 <= size_t_wrap z < 2 ^ SIZE_BITS.
Proof. unfold size_t_wrap, SIZE_BITS. apply Z.mod_pos_bound. lia. Qed.

Section Loops.
Context {St : Type}.
Implicit Types (body : Z -> St -> outcome St) (s : St).

(** A loop whose condition is [i < hi], for a [size_t] bound [hi], runs
    its body on [lo, hi): the counter never wraps, and fuel for one more
    test than rounds is enough. *)
Lemma for_loop_range fuel cond body lo hi s :
  (forall i, lo <= i -> cond i = (i <? hi)) ->
  0 <= lo -> hi < 2 ^ SIZE_BITS ->
  (Z.to_nat (hi - lo) < fuel)%nat ->
  for_loop fuel cond body lo s = for_each body (seqZ lo (hi - lo)) s.
Proof.
  revert lo s. induction fuel as [|fuel IH]; intros lo s Hc Hlo Hhi Hf; [lia|].
  simpl. rewrite Hc by lia. destruct (Z.ltb_spec lo hi) as [Hlt|Hge].
  - rewrite seqZ_cons by lia. simpl.
    rewrite size_t_wrap_small by lia.
    replace (Z.succ lo) with (lo + 1) by lia.
    replace (Z.pred (hi - lo)) with (hi - (lo + 1)) by lia.
    destruct (body lo s) as [s'|e]; simpl; [|reflexivity].
    apply IH; [intros; apply Hc|..]; lia.
  - rewrite seqZ_nil by lia. reflexivity.
Qed.

(** The counted loop [for (size_t i = 0; i < n; i++)]. *)
Lemma for_loop_upto body n s :
  n < 2 ^ SIZE_BITS ->
  for_loop (S (Z.to_nat n)) (fun i => i <? n) body 0 s
  = for_each body (seqZ 0 n) s.
Proof.
  intros Hn. rewrite (for_loop_range _ _ _ 0 n).
  - rewrite Z.sub_0_r. reflexivity.
  - reflexivity.
  - lia.
  - exact Hn.
  - lia.
Qed.

Lemma for_each_app body l1 l2 s :
  for_each body (l1 ++ l2) s = s' ← for_each body l1 s; for_each body l2 s'.
Proof.
  revert s. induction l1 as [|i l1 IH]; intros s; simpl; [reflexivity|].
  destruct (body i s) as [s'|e]; simpl; [apply IH|reflexivity].
Qed.

Lemma for_each_ext body1 body2 l s :
  (forall i s', i ∈ l -> body1 i s' = body2 i s') ->
  for_each body1 l s = for_each body2 l s.
Proof.
  revert s. induction l as [|i l IH]; intros s Hb; simpl; [reflexivity|].
  rewrite Hb by (apply elem_of_cons; left; reflexivity).
  destruct (body2 i s); simpl; [|reflexivity].
  apply IH. intros; apply Hb, elem_of_cons; right; assumption.
Qed.

End Loops.

Lemma filter_seqZ_lt (w lo n : Z) :
  filter (fun i => i < w) (seqZ lo n) = seqZ lo (Z.min (lo + n) w - lo).
Proof.
  remember (Z.to_nat n) as k eqn:Hk. revert lo n Hk.
  induction k as [|k IH]; intros lo n Hk.
  - rewrite (seqZ_nil lo n) by lia. rewrite seqZ_nil by lia. reflexivity.
  - rewrite (seqZ_cons lo n) by lia. rewrite filter_cons.
    rewrite (IH (Z.succ lo) (Z.pred n)) by lia.
    replace (Z.succ lo + Z.pred n) with (lo + n) by lia.
    destruct (decide (lo < w)) as [Hlt|Hge].
    + rewrite (seqZ_cons lo (_ - lo)) by lia. f_equal. f_equal. lia.
    + rewrite !seqZ_nil by lia. reflexivity.
Qed.

Lemma vsize_nonneg {A} (v : list A) : 0 <= vsize v.
Proof. unfold vsize. lia. Qed.

(** ** The chaining function *)

Section Chain.
Context (wp : XMSS_WOTS_Parameters) {HP : HashProvider (element_size wp)}.
Implicit Types (x y seed : secure_vector) (adrs : XMSS_Address).

Lemma chain_cond_min start steps i :
  chain_cond wp start steps i
  = (i <? Z.min (size_t_wrap (start + steps)) (wots_parameter wp)).
Proof.
  unfold chain_cond.
  destruct (Z.ltb_spec i (size_t_wrap (start + steps)));
    destruct (Z.ltb_spec i (wots_parameter wp));
    destruct (Z.ltb_spec i (Z.min (size_t_wrap (start + steps)) (wots_parameter wp)));
    simpl; try reflexivity; lia.
Qed.

(** The loop of [chain] never runs out of fuel: it is the body run on
    the indices from [start] up to the smaller of the loop bound and w. *)
Lemma chain_unfold x start steps adrs seed :
  0 <= start ->
  chain wp x start steps adrs seed
  = for_each (chain_step wp seed)
      (seqZ start (Z.min (size_t_wrap (start + steps)) (wots_parameter wp) - start))
      (x, adrs).
Proof.
  intros Hstart. unfold chain. apply for_loop_range.
  - intros i _. apply chain_cond_min.
  - exact Hstart.
  - pose proof (size_t_wrap_range (start + steps)). lia.
  - lia.
Qed.

(** A round does not read the hash address and the key-and-mask word it
    is given: it writes them first. *)
Lemma chain_step_context seed i x a1 a2 :
  same_chain_context a1 a2 ->
  chain_step wp seed i (x, a1) = chain_step wp seed i (x, a2).
Proof.
  intros (H0 & H1 & H2 & H3 & H4 & H5).
  unfold chain_step, set_key_mask_mode, set_hash_address; simpl.
  rewrite H0, H1, H2, H3, H4, H5. reflexivity.
Qed.

Lemma chain_step_keeps_context seed i x a y a' :
  chain_step wp seed i (x, a) = Ok (y, a') -> same_chain_context a a'.
Proof.
  unfold chain_step. destruct (xor_buf _ _ _); simpl; [|discriminate].
  intros [= _ <-]. repeat split.
Qed.

Lemma same_chain_context_refl a : same_chain_context a a.
Proof. repeat split. Qed.

Lemma same_chain_context_sym a b : same_chain_context a b -> same_chain_context b a.
Proof. unfold same_chain_context. intuition congruence. Qed.

Lemma same_chain_context_trans a b c :
  same_chain_context a b -> same_chain_context b c -> same_chain_context a c.
Proof. unfold same_chain_context. intuition congruence. Qed.

Lemma chain_rounds_keep_context seed l x a y a' :
  for_each (chain_step wp seed) l (x, a) = Ok (y, a') -> same_chain_context a a'.
Proof.
  revert x a. induction l as [|i l IH]; intros x a; cbn [for_each].
  - intros [= _ <-]. apply same_chain_context_refl.
  - destruct (chain_step wp seed i (x, a)) as [[x1 a1]|e] eqn:E; simpl; [|discriminate].
    intros Hl. eapply same_chain_context_trans.
    + eapply chain_step_keeps_context, E.
    + eapply IH, Hl.
Qed.

Lemma chain_rounds_context seed l x a1 a2 :
  same_chain_context a1 a2 ->
  fst <$> for_each (chain_step wp seed) l (x, a1)
  = fst <$> for_each (chain_step wp seed) l (x, a2).
Proof.
  intros Hc. destruct l as [|i l]; cbn [for_each]; [reflexivity|].
  rewrite (chain_step_context seed i x a1 a2 Hc). reflexivity.
Qed.

Lemma chain_keeps_context x start steps a seed y a' :
  0 <= start ->
  chain wp x start steps a seed = Ok (y, a') -> same_chain_context a a'.
Proof. intros Hs. rewrite chain_unfold by exact Hs. apply chain_rounds_keep_context. Qed.

Lemma chain_value_context x start steps a1 a2 seed :
  0 <= start ->
  same_chain_context a1 a2 ->
  chain_value wp x start steps a1 seed = chain_value wp x start steps a2 seed.
Proof.
  intros Hs Hc. unfold chain_value. rewrite !chain_unfold by exact Hs.
  apply chain_rounds_context, Hc.
Qed.

End Chain.

Section ChainClaims.
Context (wp : XMSS_WOTS_Parameters) {HP : HashProvider (element_size wp)}.
Implicit Types (x y seed : secure_vector) (adrs : XMSS_Address).

(** C2, as the code has it.  For every input string, all [size_t]
    values [start] and [steps], every address and seed, [chain] runs
    the mask-and-F round exactly on the indices [i] with [i < w] of the
    range from [start] to the sum the loop condition computes, in
    increasing order; that sum is [start + steps] modulo [2^64].  When
    [start + steps] is a [size_t] value the rounds are those of
    [start, start + steps) with [i < w]: the indices from [start] up to
    [w - 1], the last round the loop runs, when [start + steps > w - 1],
    and the whole range when [start + steps <= w - 1].  When
    [start + steps] is beyond [size_t] no round runs. *)
Theorem chain_clamped_range x start steps adrs seed :
  is_size_t start -> is_size_t steps ->
  chain wp x start steps adrs seed
  = for_each (chain_step wp seed)
      (filter (fun i => i < wots_parameter wp)
         (seqZ start (size_t_wrap (start + steps) - start))) (x, adrs)
  /\ (is_size_t (start + steps) ->
      chain wp x start steps adrs seed
      = for_each (chain_step wp seed)
          (filter (fun i => i < wots_parameter wp) (seqZ start steps)) (x, adrs)
      /\ (start + steps > wots_parameter wp - 1 ->
          chain wp x start steps adrs seed
          = for_each (chain_step wp seed)
              (seqZ start (wots_parameter wp - start)) (x, adrs))
      /\ (start + steps <= wots_parameter wp - 1 ->
          chain wp x start steps adrs seed
          = for_each (chain_step wp seed) (seqZ start steps) (x, adrs)))
  /\ (2 ^ SIZE_BITS <= start + steps ->
      size_t_wrap (start + steps) = start + steps - 2 ^ SIZE_BITS
      /\ chain wp x start steps adrs seed = Ok (x, adrs)).
Proof.
  intros Hstart Hsteps. rewrite chain_unfold by apply Hstart. split; [|split].
  - rewrite filter_seqZ_lt. f_equal. f_equal. lia.
  - intros Hsum. rewrite (size_t_wrap_small _ Hsum). repeat split.
    + rewrite filter_seqZ_lt. reflexivity.
    + intros Hgt. f_equal. f_equal. lia.
    + intros Hle. f_equal. f_equal. lia.
  - intros Hover. unfold is_size_t in Hstart, Hsteps.
    assert (Hwrap : size_t_wrap (start + steps)
                    = start + steps - 2 ^ SIZE_BITS).
    { unfold size_t_wrap.
      replace (start + steps)
        with (start + steps - 2 ^ SIZE_BITS + 1 * 2 ^ SIZE_BITS) at 1 by lia.
      rewrite Z_mod_plus_full. apply Z.mod_small. lia. }
    split; [exact Hwrap|]. rewrite Hwrap, seqZ_nil by lia. reflexivity.
Qed.


End ChainClaims.

Lemma chain_clamped_range_witness :
  is_size_t 14 /\ is_size_t 5 /\ is_size_t (14 + 5)
  /\ chain test_wots (replicate 32 5) 14 5 zero_address test_seed
     = for_each (chain_step test_wots test_seed)
         (seqZ 14 (wots_parameter test_wots - 14)) (replicate 32 5, zero_address).
Proof.
  assert (H14 : is_size_t 14) by (vm_compute; split; congruence).
  assert (H5 : is_size_t 5) by (vm_compute; split; congruence).
  assert (H19 : is_size_t (14 + 5)) by (vm_compute; split; congruence).
  split; [exact H14|]. split; [exact H5|]. split; [exact H19|].
  apply (proj1 (proj2 (chain_clamped_range test_wots (replicate 32 5) 14 5
                         zero_address test_seed H14 H5)) H19).
  vm_compute. reflexivity.
Defined.

(** C2 fails as it is written: [start = 5] and [steps = 2^64 - 3] are
    [size_t] values with [start + steps > w - 1], and the claim has the
    rounds of the indices 5, ..., 15 run.  The sum of the loop condition
    wraps to 2, the condition [i < start + steps] fails at [i = 5], and
    no round runs: the string and the address come back as they
    were. *)
Lemma chain_wrapped_sum_counterexample :
  let x := replicate 32 5 in
  let steps := 2 ^ 64 - 3 in
  is_size_t 5 /\ is_size_t steps
  /\ 5 + steps > wots_parameter test_wots - 1
  /\ size_t_wrap (5 + steps) = 2
  /\ chain test_wots x 5 steps zero_address test_seed = Ok (x, zero_address)
  /\ chain test_wots x 5 steps zero_address test_seed
     <> for_each (chain_step test_wots test_seed)
          (filter (fun i => i < wots_parameter test_wots) (seqZ 5 steps))
          (x, zero_address)
  /\ chain test_wots x 5 steps zero_address test_seed
     <> for_each (chain_step test_wots test_seed)
          (seqZ 5 (wots_parameter test_wots - 5)) (x, zero_address).
Proof.
  intros x steps.
  split; [vm_compute; split; congruence|].
  split; [vm_compute; split; congruence|].
  split; [vm_compute; reflexivity|].
  split; [vm_compute; reflexivity|].
  split; [vm_compute; reflexivity|].
  assert (Hne : chain test_wots x 5 steps zero_address test_seed
                <> for_each (chain_step test_wots test_seed)
                     (seqZ 5 (wots_parameter test_wots - 5)) (x, zero_address)).
  { vm_compute. intros H. inversion H. }
  split; [|exact Hne].
  rewrite filter_seqZ_lt.
  replace (Z.min (5 + steps) (wots_parameter test_wots) - 5)
    with (wots_parameter test_wots - 5) by (vm_compute; reflexivity).
  exact Hne.
Qed.


(** ** Vectors and digits *)

Lemma at_index_Ok {A} (v : list A) i x :
  0 <= i -> v !! Z.to_nat i = Some x -> at_index v i = Ok x.
Proof.
  intros Hi Hx. unfold at_index, vsize.
  apply lookup_lt_Some in Hx as Hlt.
  destruct (Z.leb_spec 0 i); [|lia].
  destruct (Z.ltb_spec i (Z.of_nat (length v))); [|lia].
  simpl. rewrite Hx. reflexivity.
Qed.

Lemma at_index_Ok_inv {A} (v : list A) i x :
  at_index v i = Ok x -> v !! Z.to_nat i = Some x.
Proof.
  unfold at_index. destruct (_ && _); [|discriminate].
  destruct (v !! Z.to_nat i); congruence.
Qed.

Lemma at_index_beyond {A} (v : list A) i :
  vsize v <= i -> at_index v i = Err OutOfBounds.
Proof.
  intros Hi. unfold at_index.
  destruct (Z.ltb_spec i (vsize v)); [lia|].
  rewrite andb_false_r. reflexivity.
Qed.

Lemma lookup_in_range {A} (v : list A) i :
  0 <= i < vsize v -> exists x, v !! Z.to_nat i = Some x.
Proof.
  intros Hi. apply lookup_lt_is_Some_2. unfold vsize in Hi. lia.
Qed.

Lemma land_le_r a b : 0 <= b -> Z.land a b <= b.
Proof.
  intros Hb.
  assert (Hdis : Z.land (Z.ldiff b a) (Z.land a b) = 0).
  { apply Z.bits_inj'. intros n Hn.
    rewrite Z.land_spec, Z.ldiff_spec, Z.land_spec, Z.bits_0.
    destruct (Z.testbit a n), (Z.testbit b n); reflexivity. }
  assert (Hsum : Z.ldiff b a + Z.land a b = b).
  { rewrite (Z.add_nocarry_lxor _ _ Hdis), (Z.lxor_lor _ _ Hdis).
    rewrite (Z.land_comm a b). apply Z.lor_ldiff_and. }
  assert (0 <= Z.ldiff b a) by (apply Z.ldiff_nonneg; lia).
  lia.
Qed.

Section Digits.
Context (p : XMSS_WOTS_Parameters).

Lemma base_w_loop_length X k inp total bits :
  length (base_w_loop p X k inp total bits) = k.
Proof.
  revert inp total bits. induction k as [|k IH]; intros inp total bits; simpl.
  - reflexivity.
  - destruct (bits =? 0); simpl; rewrite IH; reflexivity.
Qed.

Lemma base_w_loop_digits X k inp total bits :
  1 <= wots_parameter p ->
  Forall (is_digit p) (base_w_loop p X k inp total bits).
Proof.
  intros Hw. revert inp total bits.
  induction k as [|k IH]; intros inp total bits; simpl; [constructor|].
  destruct (bits =? 0); simpl; (constructor; [|apply IH]);
    (split; [apply Z.land_nonneg; right; lia|apply land_le_r; lia]).
Qed.

Lemma base_w_size X n : 0 <= n -> vsize (base_w p X n) = n.
Proof.
  intros Hn. unfold vsize, base_w. rewrite base_w_loop_length. lia.
Qed.

Lemma message_digits_size msg :
  wots_params_ok p -> vsize (message_digits p msg) = len p.
Proof.
  intros (_ & _ & H1 & H2 & _). unfold message_digits, append_checksum, len.
  unfold vsize. rewrite length_app. fold (vsize (base_w p msg (len_1 p))).
  rewrite Nat2Z.inj_add.
  change (Z.of_nat (length ?l)) with (vsize l).
  rewrite !base_w_size by assumption. reflexivity.
Qed.

Lemma message_digits_digits msg :
  wots_params_ok p -> Forall (is_digit p) (message_digits p msg).
Proof.
  intros (_ & Hw & _ & _). unfold message_digits, append_checksum.
  apply Forall_app; split; apply base_w_loop_digits; lia.
Qed.

Lemma message_digits_nonneg msg :
  wots_params_ok p -> Forall (fun d => 0 <= d) (message_digits p msg).
Proof.
  intros Hok. eapply Forall_impl; [apply message_digits_digits, Hok|].
  intros d Hd. apply Hd.
Qed.

Lemma message_digit_at msg j :
  wots_params_ok p -> 0 <= j < len p ->
  exists d, message_digits p msg !! Z.to_nat j = Some d /\ is_digit p d.
Proof.
  intros Hok Hj.
  destruct (lookup_in_range (message_digits p msg) j) as [d Hd].
  { rewrite message_digits_size by assumption. exact Hj. }
  exists d. split; [exact Hd|].
  eapply Forall_lookup_1; [apply message_digits_digits; assumption|exact Hd].
Qed.

End Digits.

(** ** Sizes along the chain *)

Lemma xor_buf_whole_ok x m :
  vsize x <= vsize m ->
  exists y, xor_buf x m (vsize x) = Ok y /\ vsize y = vsize x.
Proof.
  intros Hle. unfold xor_buf.
  pose proof (vsize_nonneg x) as Hx.
  destruct (Z.leb_spec 0 (vsize x)); [|lia].
  destruct (Z.leb_spec (vsize x) (vsize x)); [|lia].
  destruct (Z.leb_spec (vsize x) (vsize m)); [|lia].
  simpl. eexists. split; [reflexivity|].
  unfold vsize in *. rewrite length_app, length_zip_with, length_take, length_drop.
  lia.
Qed.

Lemma xor_buf_whole_fault x m e :
  xor_buf x m (vsize x) = Err e -> e = BufferOverread /\ vsize m < vsize x.
Proof.
  unfold xor_buf. pose proof (vsize_nonneg x) as Hx.
  destruct (Z.leb_spec 0 (vsize x)); [|lia].
  destruct (Z.leb_spec (vsize x) (vsize x)); [|lia].
  destruct (Z.leb_spec (vsize x) (vsize m)); simpl; [discriminate|].
  intros [= <-]. split; [reflexivity|assumption].
Qed.

Section ChainSizes.
Context (wp : XMSS_WOTS_Parameters) {HP : HashProvider (element_size wp)}.
Implicit Types (x y seed : secure_vector) (a adrs : XMSS_Address).

Lemma prf_size key data : vsize (Hash.prf key data) = element_size wp.
Proof. unfold Hash.prf. apply hash_fn_size. Qed.

Lemma f_size key data : vsize (Hash.f key data) = element_size wp.
Proof. unfold Hash.f. apply hash_fn_size. Qed.

Lemma chain_step_ok seed i x a :
  vsize x <= element_size wp ->
  exists y a', chain_step wp seed i (x, a) = Ok (y, a')
               /\ vsize y = element_size wp.
Proof.
  intros Hx. unfold chain_step.
  destruct (xor_buf_whole_ok x
    (Hash.prf seed (bytes (set_key_mask_mode Mask_Mode (set_hash_address i a)))))
    as (y & -> & _).
  { rewrite prf_size. exact Hx. }
  simpl. eexists _, _. split; [reflexivity|apply f_size].
Qed.

Lemma chain_step_ok_size seed i x a y a' :
  chain_step wp seed i (x, a) = Ok (y, a') -> vsize y = element_size wp.
Proof.
  unfold chain_step.
  destruct (xor_buf x _ (vsize x)) as [z|e']; simpl; [|discriminate].
  intros [= <- _]. apply f_size.
Qed.

Lemma chain_step_fault seed i x a e :
  chain_step wp seed i (x, a) = Err e ->
  e = BufferOverread /\ element_size wp < vsize x.
Proof.
  unfold chain_step.
  destruct (xor_buf x _ (vsize x)) as [y|e'] eqn:E; simpl; [discriminate|].
  intros [= <-]. apply xor_buf_whole_fault in E. rewrite prf_size in E. exact E.
Qed.

Lemma chain_rounds_ok seed l x a :
  vsize x <= element_size wp ->
  exists y a', for_each (chain_step wp seed) l (x, a) = Ok (y, a')
               /\ vsize y <= element_size wp.
Proof.
  revert x a. induction l as [|i l IH]; intros x a Hx; cbn [for_each].
  - eexists _, _. split; [reflexivity|exact Hx].
  - destruct (chain_step_ok seed i x a Hx) as (y & a' & -> & Hy). simpl.
    apply IH. lia.
Qed.

Lemma chain_rounds_fault seed l x a e :
  for_each (chain_step wp seed) l (x, a) = Err e ->
  e = BufferOverread /\ element_size wp < vsize x.
Proof.
  destruct (Z.le_gt_cases (vsize x) (element_size wp)) as [Hle|Hgt].
  - destruct (chain_rounds_ok seed l x a Hle) as (y & a' & -> & _). discriminate.
  - destruct l as [|i l]; cbn [for_each]; [discriminate|].
    destruct (chain_step wp seed i (x, a)) as [[y a']|e'] eqn:E; simpl.
    + apply chain_step_ok_size in E. intros Hl.
      destruct (chain_rounds_ok seed l y a') as (z & a'' & Hz & _); [lia|].
      rewrite Hz in Hl. discriminate.
    + intros [= <-]. eapply chain_step_fault, E.
Qed.

End ChainSizes.

(** ** Public-key recovery *)

Section Recovery.
Context (wp : XMSS_WOTS_Parameters) {HP : HashProvider (element_size wp)}.
Implicit Types (x y seed msg b : secure_vector) (a adrs : XMSS_Address)
               (res sig : wots_keysig_t).

Lemma chain_ok x start steps a seed :
  0 <= start ->
  vsize x <= element_size wp ->
  exists y a', chain wp x start steps a seed = Ok (y, a')
               /\ vsize y <= element_size wp.
Proof. intros Hs. rewrite chain_unfold by exact Hs. apply chain_rounds_ok. Qed.

Lemma chain_fault x start steps a seed e :
  0 <= start ->
  chain wp x start steps a seed = Err e ->
  e = BufferOverread /\ element_size wp < vsize x.
Proof. intros Hs. rewrite chain_unfold by exact Hs. apply chain_rounds_fault. Qed.

Lemma pkfs_unfold msg sig adrs seed :
  len wp < 2 ^ SIZE_BITS ->
  pub_key_from_signature wp msg sig adrs seed
  = for_each (pkfs_body wp (message_digits wp msg) seed)
      (seqZ 0 (len wp)) (sig, adrs).
Proof.
  intros Hlen. unfold pub_key_from_signature, message_digits.
  apply for_loop_upto, Hlen.
Qed.

Lemma pkfs_body_eval b seed i res a x d :
  0 <= i -> res !! Z.to_nat i = Some x -> b !! Z.to_nat i = Some d ->
  pkfs_body wp b seed i (res, a)
  = '(x', a') ← chain wp x d (size_t_wrap (wots_parameter wp - 1 - d))
                      (set_chain_address i a) seed;
    Ok (<[Z.to_nat i := x']> res, a').
Proof.
  intros Hi Hx Hd. unfold pkfs_body.
  rewrite (at_index_Ok res i x Hi Hx), (at_index_Ok b i d Hi Hd). reflexivity.
Qed.

Lemma set_chain_address_context i a adrs0 :
  same_ots_context a adrs0 ->
  same_chain_context (set_chain_address i a) (set_chain_address i adrs0).
Proof. intros (H0 & H1 & H2 & H3 & H4). repeat split; assumption. Qed.

Lemma chain_context_ots i a a1 adrs0 :
  same_ots_context a adrs0 ->
  same_chain_context (set_chain_address i a) a1 ->
  same_ots_context a1 adrs0.
Proof.
  intros (H0 & H1 & H2 & H3 & H4) (G0 & G1 & G2 & G3 & G4 & _).
  simpl in *. repeat split; congruence.
Qed.

(** What [k] rounds of the loop from index [i] do to the vector: either
    every string of the range has been replaced by the end of its chain,
    or one of them was longer than the n-byte mask. *)
Lemma pkfs_rounds b seed adrs0 (k : nat) : forall i res a,
  Forall (fun d => 0 <= d) b ->
  0 <= i -> i + Z.of_nat k <= vsize res -> i + Z.of_nat k <= vsize b ->
  same_ots_context a adrs0 ->
  match for_each (pkfs_body wp b seed) (seqZ i (Z.of_nat k)) (res, a) with
  | Ok (res', a') =>
      length res' = length res /\ same_ots_context a' adrs0
      /\ (forall j : nat, Z.of_nat j < i \/ i + Z.of_nat k <= Z.of_nat j ->
            res' !! j = res !! j)
      /\ (forall j : nat, i <= Z.of_nat j < i + Z.of_nat k ->
            exists x d y,
              res !! j = Some x /\ b !! j = Some d
              /\ chain_value wp x d (size_t_wrap (wots_parameter wp - 1 - d))
                   (set_chain_address (Z.of_nat j) adrs0) seed = Ok y
              /\ res' !! j = Some y)
  | Err e =>
      e = BufferOverread
      /\ exists (j : nat) x, i <= Z.of_nat j < i + Z.of_nat k
                             /\ res !! j = Some x /\ element_size wp < vsize x
  end.
Proof.
  induction k as [|k IH]; intros i res a Hdig Hi Hres Hb Hctx.
  - rewrite seqZ_nil by lia. cbn [for_each].
    split; [reflexivity|]. split; [exact Hctx|].
    split; [intros; reflexivity|intros; lia].
  - rewrite seqZ_cons by lia. cbn [for_each].
    replace (Z.pred (Z.of_nat (S k))) with (Z.of_nat k) by lia.
    replace (Z.succ i) with (i + 1) by lia.
    destruct (lookup_in_range res i) as [x Hx]; [lia|].
    destruct (lookup_in_range b i) as [d Hd]; [lia|].
    assert (Hd0 : 0 <= d) by (exact (Forall_lookup_1 _ _ _ _ Hdig Hd)).
    rewrite (pkfs_body_eval b seed i res a x d Hi Hx Hd).
    destruct (chain wp x d _ (set_chain_address i a) seed)
      as [[y a1]|e] eqn:E; simpl.
    + assert (Hctx1 : same_ots_context a1 adrs0).
      { eapply chain_context_ots; [exact Hctx|].
        eapply chain_keeps_context; [exact Hd0|exact E]. }
      assert (Hval : chain_value wp x d (size_t_wrap (wots_parameter wp - 1 - d))
                       (set_chain_address i adrs0) seed = Ok y).
      { rewrite <- (chain_value_context wp x d _ (set_chain_address i a));
          [|exact Hd0|apply set_chain_address_context, Hctx].
        unfold chain_value. rewrite E. reflexivity. }
      assert (Hsz1 : vsize (<[Z.to_nat i := y]> res) = vsize res)
        by (unfold vsize; rewrite length_insert; reflexivity).
      specialize (IH (i + 1) (<[Z.to_nat i := y]> res) a1).
      rewrite Hsz1 in IH.
      specialize (IH Hdig ltac:(lia) ltac:(lia) ltac:(lia) Hctx1).
      destruct (for_each (pkfs_body wp b seed) (seqZ (i + 1) (Z.of_nat k))
                  (<[Z.to_nat i := y]> res, a1)) as [[res' a']|e].
      * destruct IH as (Hlen & Hc' & Hframe & Helems).
        rewrite length_insert in Hlen.
        split; [exact Hlen|]. split; [exact Hc'|]. split.
        -- intros j Hj. rewrite Hframe by lia.
           apply list_lookup_insert_ne. lia.
        -- intros j Hj. destruct (decide (j = Z.to_nat i)) as [->|Hne].
           ++ exists x, d, y. rewrite Z2Nat.id by lia.
              split; [exact Hx|]. split; [exact Hd|]. split; [exact Hval|].
              rewrite Hframe by lia. apply list_lookup_insert_eq.
              apply lookup_lt_Some in Hx. exact Hx.
           ++ destruct (Helems j) as (x' & d' & y' & Hx' & Hd' & Hv' & Hy'); [lia|].
              exists x', d', y'.
              rewrite list_lookup_insert_ne in Hx' by lia. auto.
      * destruct IH as (-> & j & x' & Hj & Hx' & Hsz).
        split; [reflexivity|]. exists j, x'.
        rewrite list_lookup_insert_ne in Hx' by lia.
        split; [lia|]. split; assumption.
    + apply chain_fault in E as (-> & Hsz); [|exact Hd0].
      split; [reflexivity|]. exists (Z.to_nat i), x.
      split; [lia|]. split; assumption.
Qed.

End Recovery.

Lemma at_index_fault {A} (v : list A) i e :
  at_index v i = Err e -> e = OutOfBounds.
Proof.
  unfold at_index. destruct (_ && _); [|congruence].
  destruct (v !! Z.to_nat i); congruence.
Qed.

Lemma for_each_fault {St} (P : fault -> Prop) (body : Z -> St -> outcome St) l s e :
  (forall i s' e', body i s' = Err e' -> P e') ->
  for_each body l s = Err e -> P e.
Proof.
  intros Hb. revert s. induction l as [|i l IH]; intros s; cbn [for_each].
  - discriminate.
  - destruct (body i s) as [s'|e'] eqn:E; simpl.
    + apply IH.
    + intros [= <-]. eapply Hb, E.
Qed.

Lemma wots_params_test : wots_params_ok test_wots.
Proof. vm_compute. repeat split; congruence. Qed.

Lemma test_sig_sized :
  Forall (fun x : secure_vector => vsize x <= element_size test_wots) test_sig.
Proof.
  unfold test_sig. apply Forall_fmap, Forall_forall. intros j _.
  unfold compose, vsize. rewrite length_replicate. vm_compute. congruence.
Qed.

Section RecoveryClaims.
Context (wp : XMSS_WOTS_Parameters) {HP : HashProvider (element_size wp)}.
Implicit Types (x y seed msg : secure_vector) (adrs : XMSS_Address)
               (sig pk : wots_keysig_t).

Lemma pkfs_body_fault b seed i st e :
  Forall (fun d => 0 <= d) b ->
  pkfs_body wp b seed i st = Err e -> e = OutOfBounds \/ e = BufferOverread.
Proof.
  intros Hdig. destruct st as [res a]. unfold pkfs_body.
  destruct (at_index res i) as [x|e1] eqn:E1; simpl.
  2: { intros [= <-]. left. eapply at_index_fault, E1. }
  destruct (at_index b i) as [d|e2] eqn:E2; simpl.
  2: { intros [= <-]. left. eapply at_index_fault, E2. }
  destruct (chain wp x d _ (set_chain_address i a) seed) as [[y a1]|e3] eqn:E3;
    simpl; [discriminate|].
  intros [= <-]. right. eapply chain_fault; [|exact E3].
  apply at_index_Ok_inv in E2. exact (Forall_lookup_1 _ _ _ _ Hdig E2).
Qed.

Lemma pkfs_body_beyond b seed i (res : wots_keysig_t) a :
  vsize res <= i -> pkfs_body wp b seed i (res, a) = Err OutOfBounds.
Proof.
  intros Hi. unfold pkfs_body. rewrite (at_index_beyond res i Hi). reflexivity.
Qed.

Lemma pkfs_fault msg sig adrs seed e :
  wots_params_ok wp ->
  pub_key_from_signature wp msg sig adrs seed = Err e ->
  e = OutOfBounds \/ e = BufferOverread.
Proof.
  intros Hok. rewrite pkfs_unfold by apply Hok.
  apply (for_each_fault (fun e => e = OutOfBounds \/ e = BufferOverread)).
  intros i s' e'. apply pkfs_body_fault, message_digits_nonneg, Hok.
Qed.

(** C3. For every message, every signature of [len] strings, every
    address and seed: the digit string [b] is [base_w] of the message on
    [len_1] digits followed by the checksum digits, [len] digits in all;
    the vector [pub_key_from_signature] returns has [len] strings and
    its element [j] is [chain(sig[j], b[j], w - 1 - b[j])] run on the
    address with chain_address set to [j]; and it does return when the
    strings of the signature are no longer than n bytes (they are n
    bytes long in a WOTS+ signature). *)
Theorem pub_key_from_signature_elements msg sig adrs seed :
  wots_params_ok wp ->
  vsize sig = len wp ->
  (message_digits wp msg = append_checksum wp (base_w wp msg (len_1 wp))
   /\ vsize (base_w wp msg (len_1 wp)) = len_1 wp
   /\ vsize (message_digits wp msg) = len wp)
  /\ (forall pk adrs',
        pub_key_from_signature wp msg sig adrs seed = Ok (pk, adrs') ->
        vsize pk = len wp
        /\ forall j, 0 <= j < len wp ->
             exists x d y,
               sig !! Z.to_nat j = Some x
               /\ message_digits wp msg !! Z.to_nat j = Some d
               /\ is_digit wp d
               /\ chain_value wp x d (wots_parameter wp - 1 - d)
                    (set_chain_address j adrs) seed = Ok y
               /\ pk !! Z.to_nat j = Some y)
  /\ (Forall (fun x => vsize x <= element_size wp) sig ->
      exists pk adrs',
        pub_key_from_signature wp msg sig adrs seed = Ok (pk, adrs')).
Proof.
  intros Hok Hlen.
  pose proof Hok as (Hn & Hw & Hl1 & Hl2 & Hlmax).
  assert (Hb : vsize (message_digits wp msg) = len wp)
    by (apply message_digits_size; assumption).
  split.
  { split; [reflexivity|]. split; [apply base_w_size; assumption|exact Hb]. }
  assert (Hlen0 : 0 <= len wp) by (unfold len; lia).
  rewrite pkfs_unfold by exact Hlmax.
  pose proof (pkfs_rounds wp (message_digits wp msg) seed adrs
                (Z.to_nat (len wp)) 0 sig adrs
                (message_digits_nonneg wp msg Hok)) as Hr.
  rewrite Z2Nat.id in Hr by assumption.
  specialize (Hr ltac:(lia) ltac:(lia) ltac:(lia) ltac:(repeat split)).
  destruct (for_each _ (seqZ 0 (len wp)) (sig, adrs)) as [[pk0 adrs0]|e].
  - destruct Hr as (Hlenpk & _ & _ & Helems). split.
    + intros pk adrs' [= <- <-].
      split; [unfold vsize in *; congruence|].
      intros j Hj.
      destruct (Helems (Z.to_nat j)) as (x & d & y & Hx & Hd & Hv & Hy); [lia|].
      rewrite Z2Nat.id in Hv by lia.
      assert (Hdig : is_digit wp d).
      { eapply Forall_lookup_1; [apply message_digits_digits; exact Hok|exact Hd]. }
      exists x, d, y. repeat split; try assumption; try apply Hdig.
      rewrite size_t_wrap_small in Hv; [exact Hv|].
      unfold is_digit in Hdig. unfold SIZE_BITS in *. lia.
    + intros _. exists pk0, adrs0. reflexivity.
  - destruct Hr as (_ & j & x & _ & Hx & Hbig). split.
    + intros pk adrs' [=].
    + intros Hsized.
      eapply Forall_lookup_1 in Hsized; [|exact Hx]. simpl in Hsized. lia.
Qed.

(** C9, as the code has it.  [pub_key_from_signature] and the
    constructor built on it never check the length of the signature: no
    InvalidSignatureLength comes out of them.  With at least [len]
    strings in [sig] no index is out of bounds; the function returns
    when, in addition, the strings are no longer than the n-byte mask
    (they are n bytes long in a WOTS+ signature), and the length of the
    vector alone does not make it return.  With fewer than [len] such
    strings the out-of-bounds access [result[i]] is reached. *)
Theorem pub_key_from_signature_unchecked_length msg sig adrs seed :
  wots_params_ok wp ->
  (pub_key_from_signature wp msg sig adrs seed <> Err InvalidSignatureLength
   /\ XMSS_WOTS_PublicKey_from_signature wp msg sig adrs seed
      <> Err InvalidSignatureLength)
  /\ (len wp <= vsize sig ->
      pub_key_from_signature wp msg sig adrs seed <> Err OutOfBounds
      /\ (Forall (fun x => vsize x <= element_size wp) sig ->
          exists pk adrs',
            pub_key_from_signature wp msg sig adrs seed = Ok (pk, adrs')
            /\ XMSS_WOTS_PublicKey_from_signature wp msg sig adrs seed
               = Ok (mkWotsPublicKey wp pk seed, adrs')))
  /\ (vsize sig < len wp ->
      Forall (fun x => vsize x <= element_size wp) sig ->
      pub_key_from_signature wp msg sig adrs seed = Err OutOfBounds
      /\ XMSS_WOTS_PublicKey_from_signature wp msg sig adrs seed
         = Err OutOfBounds).
Proof.
  intros Hok. pose proof Hok as (Hn & Hw & Hl1 & Hl2 & Hlmax).
  assert (Hb : vsize (message_digits wp msg) = len wp)
    by (apply message_digits_size; assumption).
  assert (Hlen0 : 0 <= len wp) by (unfold len; lia).
  pose proof (message_digits_nonneg wp msg Hok) as Hdig.
  split; [|split].
  - assert (Hp : pub_key_from_signature wp msg sig adrs seed
                 <> Err InvalidSignatureLength).
    { intros E. apply pkfs_fault in E as [E|E]; [discriminate..|exact Hok]. }
    split; [exact Hp|]. unfold XMSS_WOTS_PublicKey_from_signature.
    destruct (pub_key_from_signature wp msg sig adrs seed) as [[pk a']|e];
      simpl; congruence.
  - intros Hlen.
    unfold XMSS_WOTS_PublicKey_from_signature. rewrite pkfs_unfold by exact Hlmax.
    pose proof (pkfs_rounds wp (message_digits wp msg) seed adrs
                  (Z.to_nat (len wp)) 0 sig adrs Hdig) as Hr.
    rewrite Z2Nat.id in Hr by assumption.
    specialize (Hr ltac:(lia) ltac:(lia) ltac:(lia) ltac:(repeat split)).
    destruct (for_each _ (seqZ 0 (len wp)) (sig, adrs)) as [[pk adrs']|e].
    + split; [discriminate|]. intros _. exists pk, adrs'. split; reflexivity.
    + destruct Hr as (-> & j & x & _ & Hx & Hbig).
      split; [discriminate|]. intros Hsized.
      eapply Forall_lookup_1 in Hsized; [|exact Hx]. simpl in Hsized. lia.
  - intros Hshort Hsized.
    assert (Hp : pub_key_from_signature wp msg sig adrs seed = Err OutOfBounds).
    { rewrite pkfs_unfold by exact Hlmax.
      replace (len wp) with (vsize sig + (len wp - vsize sig)) by lia.
      pose proof (vsize_nonneg sig) as Hs0.
      rewrite seqZ_app by lia. rewrite for_each_app, Z.add_0_l.
      pose proof (pkfs_rounds wp (message_digits wp msg) seed adrs
                    (length sig) 0 sig adrs Hdig) as Hr.
      fold (vsize sig) in Hr.
      specialize (Hr ltac:(lia) ltac:(lia) ltac:(lia) ltac:(repeat split)).
      destruct (for_each _ (seqZ 0 (vsize sig)) (sig, adrs)) as [[res a']|e].
      - destruct Hr as (Hlenres & _). simpl.
        rewrite seqZ_cons by lia. cbn [for_each].
        rewrite pkfs_body_beyond; [reflexivity|]. unfold vsize. lia.
      - destruct Hr as (_ & j & x & _ & Hx & Hbig).
        eapply Forall_lookup_1 in Hsized; [|exact Hx]. simpl in Hsized. lia. }
    split; [exact Hp|].
    unfold XMSS_WOTS_PublicKey_from_signature. rewrite Hp. reflexivity.
Qed.

End RecoveryClaims.

Lemma pub_key_from_signature_elements_witness :
  exists pk adrs',
    pub_key_from_signature test_wots [1; 2; 3] test_sig zero_address test_seed
    = Ok (pk, adrs')
    /\ vsize pk = len test_wots.
Proof.
  destruct (pub_key_from_signature_elements test_wots [1; 2; 3] test_sig
              zero_address test_seed wots_params_test eq_refl)
    as (_ & Helems & Hreturns).
  destruct (Hreturns test_sig_sized) as (pk & adrs' & Hpk).
  exists pk, adrs'. split; [exact Hpk|]. apply (Helems pk adrs' Hpk).
Defined.

Lemma pub_key_from_signature_unchecked_length_witness :
  (exists pk adrs',
     pub_key_from_signature test_wots [1; 2; 3] test_sig zero_address test_seed
     = Ok (pk, adrs'))
  /\ pub_key_from_signature test_wots [1; 2; 3] (take 66 test_sig) zero_address
       test_seed = Err OutOfBounds.
Proof.
  split.
  - destruct (pub_key_from_signature_unchecked_length test_wots [1; 2; 3]
                test_sig zero_address test_seed wots_params_test)
      as (_ & Hlong & _).
    destruct Hlong as (_ & Htotal); [vm_compute; discriminate|].
    destruct (Htotal test_sig_sized) as (pk & adrs' & Hpk & _).
    exists pk, adrs'. exact Hpk.
  - destruct (pub_key_from_signature_unchecked_length test_wots [1; 2; 3]
                (take 66 test_sig) zero_address test_seed wots_params_test)
      as (_ & _ & Hshort).
    apply Hshort.
    + vm_compute. reflexivity.
    + apply Forall_take, test_sig_sized.
Defined.

(** C9 fails as it is written: a signature of [len = 67] strings whose
    string 3 has 33 bytes holds at least [len] strings, and every index
    is in bounds, yet neither [pub_key_from_signature] nor the
    constructor returns: the digit of the message at index 3 is 2, and
    the first round of that chain reads 33 bytes of the 32-byte mask. *)
Lemma pub_key_from_signature_long_string_counterexample :
  let sig := <[3%nat := replicate 33 7]> test_sig in
  len test_wots <= vsize sig
  /\ message_digits test_wots [1; 2; 3] !! 3%nat = Some 2
  /\ pub_key_from_signature test_wots [1; 2; 3] sig zero_address test_seed
     = Err BufferOverread
  /\ XMSS_WOTS_PublicKey_from_signature test_wots [1; 2; 3] sig zero_address
       test_seed = Err BufferOverread.
Proof.
  intros sig. split; [vm_compute; congruence|].
  split; [vm_compute; reflexivity|].
  split; vm_compute; reflexivity.
Qed.

(** ** Equality of WOTS+ public keys *)

Lemma vector_eqb_eq {A} (eqb : A -> A -> bool) :
  (forall x y, eqb x y = true <-> x = y) ->
  forall u v, vector_eqb eqb u v = true <-> u = v.
Proof.
  intros Heqb u. induction u as [|x u IH]; intros [|y v]; simpl;
    try (split; [discriminate|congruence]); [tauto|].
  rewrite andb_true_iff, Heqb, IH. split; [intros [-> ->]|intros [= -> ->]]; auto.
Qed.

(** C10. [operator==] on WOTS+ public keys looks at the raw key data
    only: it is true exactly when the two [key_data] vectors are equal,
    whatever the public seeds and the parameter sets of the two keys;
    [operator!=] is its negation. *)
Theorem op_eq_compares_key_data (this key : XMSS_WOTS_PublicKey) :
  (op_eq this key = true <-> key_data this = key_data key)
  /\ op_ne this key = negb (op_eq this key)
  /\ (op_ne this key = true <-> key_data this <> key_data key)
  /\ (forall params seed,
        op_eq this (mkWotsPublicKey params (key_data this) seed) = true).
Proof.
  assert (Heq : forall a b : XMSS_WOTS_PublicKey,
             op_eq a b = true <-> key_data a = key_data b).
  { intros a b. unfold op_eq, key_data.
    apply vector_eqb_eq. intros x y. apply vector_eqb_eq, Z.eqb_eq. }
  split; [apply Heq|]. split; [reflexivity|]. split.
  - unfold op_ne. rewrite negb_true_iff, <- not_true_iff_false, Heq. reflexivity.
  - intros params seed. apply Heq. reflexivity.
Qed.

(** Two keys of different parameter sets and seeds with the same data. *)
Example op_eq_other_seed_and_oid :
  op_eq (mkWotsPublicKey (wots_parameters_of SHA2_256) [[1; 2]; [3]] [7])
        (mkWotsPublicKey (wots_parameters_of SHAKE256) [[1; 2]; [3]] [8; 9])
  = true.
Proof. reflexivity. Qed.

(** ** The authentication path *)

Lemma lxor_1_even q : q mod 2 = 0 -> Z.lxor q 1 = q + 1.
Proof.
  intros Hq. symmetry. apply Z.add_nocarry_lxor.
  change 1 with (Z.ones 1). rewrite Z.land_ones by lia. exact Hq.
Qed.

Lemma lxor_1_odd q : q mod 2 = 1 -> Z.lxor q 1 = q - 1.
Proof.
  intros Hq. assert (He : (q - 1) mod 2 = 0).
  { rewrite Zminus_mod, Hq. reflexivity. }
  assert (Hq' : Z.lxor (q - 1) 1 = q) by (rewrite lxor_1_even by exact He; lia).
  rewrite <- Hq' at 1.
  rewrite Z.lxor_assoc, Z.lxor_nilpotent, Z.lxor_0_r. reflexivity.
Qed.

(** The sibling index times [2^j] fits [size_t]: the product of the
    source does not wrap. *)
Lemma sibling_start_fits i j :
  is_size_t i -> 0 <= j < SIZE_BITS ->
  is_size_t (Z.lxor (i / 2 ^ j) 1 * 2 ^ j).
Proof.
  unfold is_size_t, SIZE_BITS. intros Hi Hj.
  assert (HP : 0 < 2 ^ j) by (apply Z.pow_pos_nonneg; lia).
  assert (Hq0 : 0 <= i / 2 ^ j) by (apply Z.div_pos; lia).
  assert (Hsplit : 2 ^ 64 = 2 * 2 ^ (63 - j) * 2 ^ j).
  { rewrite <- Z.mul_assoc, <- Z.pow_add_r, <- Z.pow_succ_r by lia.
    f_equal. lia. }
  assert (HM : 0 < 2 ^ (63 - j)) by (apply Z.pow_pos_nonneg; lia).
  assert (Hq : i / 2 ^ j < 2 * 2 ^ (63 - j)).
  { apply Z.div_lt_upper_bound; [lia|]. rewrite Z.mul_comm. lia. }
  pose proof (Z.mod_pos_bound (i / 2 ^ j) 2 ltac:(lia)) as Hm.
  pose proof (Z.div_mod (i / 2 ^ j) 2 ltac:(lia)) as Hdm.
  destruct (Z.eq_dec ((i / 2 ^ j) mod 2) 0) as [He|Ho].
  - rewrite (lxor_1_even _ He). split; [nia|].
    assert (i / 2 ^ j + 1 < 2 * 2 ^ (63 - j)) by lia. nia.
  - assert (Ho1 : (i / 2 ^ j) mod 2 = 1) by lia.
    rewrite (lxor_1_odd _ Ho1). split; [nia|]. nia.
Qed.

Lemma int_shl1_ok j : 0 <= j <= 30 -> int_shl1 j = Ok (2 ^ j).
Proof.
  intros Hj. unfold int_shl1.
  destruct (Z.leb_spec 0 j); [|lia]. destruct (Z.ltb_spec j 31); [|lia].
  simpl. rewrite Z.shiftl_1_l. reflexivity.
Qed.

Lemma set_index_ok {A} (v : list A) i x :
  0 <= i < vsize v -> set_index v i x = Ok (<[Z.to_nat i := x]> v).
Proof.
  intros Hi. unfold set_index.
  destruct (Z.leb_spec 0 i); [|lia]. destruct (Z.ltb_spec i (vsize v)); [|lia].
  reflexivity.
Qed.

Section AuthPath.
Context (xp : XMSS_Parameters) {TH : TreeHash}.
Implicit Types (key : XMSS_PrivateKey) (adrs : XMSS_Address)
               (auth : wots_keysig_t).

Lemma auth_path_body_ok key leaf_idx adrs j auth :
  0 <= j <= 30 -> j < vsize auth ->
  auth_path_body key leaf_idx adrs j auth
  = Ok (<[Z.to_nat j := auth_node key leaf_idx adrs j]> auth).
Proof.
  intros Hj Hlt. unfold auth_path_body. rewrite (int_shl1_ok j Hj). simpl.
  apply set_index_ok. lia.
Qed.

Lemma auth_path_rounds key leaf_idx adrs (k : nat) : forall j0 auth,
  0 <= j0 -> j0 + Z.of_nat k <= vsize auth -> j0 + Z.of_nat k <= 31 ->
  exists auth',
    for_each (auth_path_body key leaf_idx adrs) (seqZ j0 (Z.of_nat k)) auth
    = Ok auth'
    /\ length auth' = length auth
    /\ (forall j : nat, Z.of_nat j < j0 \/ j0 + Z.of_nat k <= Z.of_nat j ->
          auth' !! j = auth !! j)
    /\ (forall j : nat, j0 <= Z.of_nat j < j0 + Z.of_nat k ->
          auth' !! j = Some (auth_node key leaf_idx adrs (Z.of_nat j))).
Proof.
  induction k as [|k IH]; intros j0 auth Hj0 Hsz Hmax.
  - exists auth. rewrite seqZ_nil by lia. cbn [for_each].
    split; [reflexivity|]. split; [reflexivity|].
    split; [intros; reflexivity|intros; lia].
  - rewrite seqZ_cons by lia. cbn [for_each].
    replace (Z.pred (Z.of_nat (S k))) with (Z.of_nat k) by lia.
    replace (Z.succ j0) with (j0 + 1) by lia.
    rewrite auth_path_body_ok by lia. simpl.
    set (auth1 := <[Z.to_nat j0 := auth_node key leaf_idx adrs j0]> auth).
    assert (Hsz1 : vsize auth1 = vsize auth)
      by (unfold vsize, auth1; rewrite length_insert; reflexivity).
    destruct (IH (j0 + 1) auth1) as (auth' & Hrun & Hlen & Hframe & Helems);
      [lia..|].
    exists auth'. split; [exact Hrun|].
    split; [rewrite Hlen; unfold auth1; apply length_insert|]. split.
    + intros j Hj. rewrite Hframe by lia.
      unfold auth1. apply list_lookup_insert_ne. lia.
    + intros j Hj. destruct (decide (j = Z.to_nat j0)) as [->|Hne].
      * rewrite Hframe by lia. rewrite Z2Nat.id by lia.
        unfold auth1. apply list_lookup_insert_eq. unfold vsize in Hsz. lia.
      * apply Helems. lia.
Qed.

Lemma build_auth_path_unfold this key adrs :
  tree_height xp < 2 ^ SIZE_BITS ->
  build_auth_path xp this key adrs
  = auth ← for_each
             (auth_path_body key (m_leaf_idx this)
                (set_type Hash_Tree_Address adrs))
             (seqZ 0 (tree_height xp))
             (replicate (Z.to_nat (tree_height xp)) []);
    Ok (auth, set_type Hash_Tree_Address adrs).
Proof.
  intros Hh. unfold build_auth_path. rewrite (for_loop_upto _ _ _ Hh).
  reflexivity.
Qed.

Lemma build_auth_path_levels this key adrs :
  0 <= tree_height xp <= 31 ->
  exists auth,
    build_auth_path xp this key adrs
    = Ok (auth, set_type Hash_Tree_Address adrs)
    /\ vsize auth = tree_height xp
    /\ forall j : nat, Z.of_nat j < tree_height xp ->
         auth !! j = Some (auth_node key (m_leaf_idx this)
                             (set_type Hash_Tree_Address adrs) (Z.of_nat j)).
Proof.
  intros Hh. rewrite build_auth_path_unfold by (unfold SIZE_BITS; lia).
  destruct (auth_path_rounds key (m_leaf_idx this)
              (set_type Hash_Tree_Address adrs) (Z.to_nat (tree_height xp)) 0
              (replicate (Z.to_nat (tree_height xp)) []))
    as (auth & Hrun & Hlen & _ & Helems).
  - lia.
  - unfold vsize. rewrite length_replicate. lia.
  - lia.
  - rewrite Z2Nat.id in Hrun by lia. rewrite Hrun. simpl.
    exists auth. split; [reflexivity|]. split.
    + unfold vsize. rewrite Hlen, length_replicate. lia.
    + intros j Hj. apply Helems. lia.
Qed.

(** C5. For every leaf index (a [size_t] value, reserved ones among
    them) and every tree height [h] (at most 31, so that [1 << j] is
    defined), [build_auth_path] returns exactly [h] nodes, and node [j]
    is [treeHash((floor(i / 2^j) XOR 1) * 2^j, j, ADRS)] with the
    address set to type Hash_Tree_Address; the start index is a
    multiple of [2^j], as treeHash asks. *)
Theorem build_auth_path_nodes this priv_key adrs :
  0 <= tree_height xp <= 31 ->
  is_size_t (m_leaf_idx this) ->
  exists auth_path,
    build_auth_path xp this priv_key adrs
    = Ok (auth_path, set_type Hash_Tree_Address adrs)
    /\ vsize auth_path = tree_height xp
    /\ forall j, 0 <= j < tree_height xp ->
         auth_path !! Z.to_nat j
         = Some (tree_hash priv_key
                   (Z.lxor (m_leaf_idx this / 2 ^ j) 1 * 2 ^ j) j
                   (set_type Hash_Tree_Address adrs))
         /\ (Z.lxor (m_leaf_idx this / 2 ^ j) 1 * 2 ^ j) mod 2 ^ j = 0.
Proof.
  intros Hh Hi.
  destruct (build_auth_path_levels this priv_key adrs Hh)
    as (auth & Hrun & Hsz & Helems).
  exists auth. split; [exact Hrun|]. split; [exact Hsz|].
  intros j Hj. split.
  - rewrite (Helems (Z.to_nat j)) by lia. rewrite Z2Nat.id by lia.
    unfold auth_node. rewrite size_t_wrap_small; [reflexivity|].
    apply sibling_start_fits; [exact Hi|]. unfold SIZE_BITS. lia.
  - apply Z.mod_mul. apply Z.pow_nonzero; lia.
Qed.

End AuthPath.

Lemma build_auth_path_nodes_witness :
  exists auth_path,
    build_auth_path test_xmss
      (mkSigner test_key [] 5 true (mkHash [])) test_key zero_address
    = Ok (auth_path, set_type Hash_Tree_Address zero_address)
    /\ vsize auth_path = tree_height test_xmss.
Proof.
  destruct (build_auth_path_nodes test_xmss
              (mkSigner test_key [] 5 true (mkHash [])) test_key zero_address)
    as (auth & Hrun & Hsz & _).
  - vm_compute. split; congruence.
  - vm_compute. split; [congruence|reflexivity].
  - exists auth. split; assumption.
Defined.

(** ** The signature operation *)

Lemma for_each_ok {St} (body : Z -> St -> outcome St) l s :
  (forall i s', i ∈ l -> exists s'', body i s' = Ok s'') ->
  exists s', for_each body l s = Ok s'.
Proof.
  revert s. induction l as [|i l IH]; intros s Hb; cbn [for_each].
  - exists s. reflexivity.
  - destruct (Hb i s) as (s1 & ->); [apply elem_of_cons; left; reflexivity|].
    simpl. apply IH. intros j s' Hj. apply Hb, elem_of_cons. right. exact Hj.
Qed.

Lemma reserve_exhausted_again xp k k' :
  reserve_unused_leaf_index xp k = (Err LeafExhausted, k') ->
  exists k'', reserve_unused_leaf_index xp k' = (Err LeafExhausted, k'').
Proof.
  unfold reserve_unused_leaf_index.
  destruct (Z.leb_spec (2 ^ tree_height xp) (unused_leaf_index k)) as [Hle|Hlt];
    [|discriminate].
  intros [= <-]. simpl.
  destruct (Z.leb_spec (2 ^ tree_height xp) (unused_leaf_index k + 1)); [|lia].
  eexists. reflexivity.
Qed.

Lemma reserve_keeps_secrets xp k o k' :
  reserve_unused_leaf_index xp k = (o, k') ->
  prf k' = prf k /\ root k' = root k /\ private_seed k' = private_seed k
  /\ public_seed k' = public_seed k
  /\ unused_leaf_index k' = unused_leaf_index k + 1.
Proof.
  unfold reserve_unused_leaf_index.
  destruct (2 ^ tree_height xp <=? unused_leaf_index k);
    intros [= _ <-]; repeat split.
Qed.

Section SignerFacts.
Context (xp : XMSS_Parameters) {HP : HashProvider (xmss_element_size xp)}
        {TH : TreeHash}.
Implicit Types (this : XMSS_Signature_Operation) (key : XMSS_PrivateKey)
               (msg : secure_vector) (adrs : XMSS_Address).

Lemma wots_sign_unfold key msg adrs :
  len (xmss_wots xp) < 2 ^ SIZE_BITS ->
  wots_sign xp key msg adrs
  = for_each (wots_sign_body xp key (message_digits (xmss_wots xp) msg))
      (seqZ 0 (len (xmss_wots xp))) ([], adrs).
Proof.
  intros Hlen. unfold wots_sign. apply for_loop_upto, Hlen.
Qed.

Lemma wots_sign_ok key msg adrs :
  wots_params_ok (xmss_wots xp) ->
  exists sig adrs', wots_sign xp key msg adrs = Ok (sig, adrs').
Proof.
  intros Hok. rewrite wots_sign_unfold by apply Hok.
  destruct (for_each_ok
              (wots_sign_body xp key (message_digits (xmss_wots xp) msg))
              (seqZ 0 (len (xmss_wots xp))) ([], adrs)) as ([sig adrs'] & Hrun).
  - intros j [sig a] Hj. apply elem_of_seqZ in Hj.
    destruct (message_digit_at (xmss_wots xp) msg j Hok) as (d & Hd & _); [lia|].
    unfold wots_sign_body. rewrite (at_index_Ok _ j d) by (lia || exact Hd).
    simpl.
    destruct (chain_ok (xmss_wots xp)
                (Hash.prf (private_seed key)
                   (bytes (set_key_mask_mode Key_Mode
                             (set_hash_address 0 (set_chain_address j a)))))
                0 d (set_chain_address j a) (public_seed key))
      as (x & a' & -> & _).
    + lia.
    + rewrite (prf_size (xmss_wots xp)). lia.
    + simpl. eexists. reflexivity.
  - exists sig, adrs'. exact Hrun.
Qed.

Lemma generate_tree_signature_ok this msg key adrs :
  xmss_params_ok xp ->
  exists sig_ots auth_path adrs',
    generate_tree_signature xp this msg key adrs
    = Ok (mkTreeSignature sig_ots auth_path, adrs')
    /\ vsize auth_path = tree_height xp.
Proof.
  intros [Hw Hh]. unfold generate_tree_signature.
  destruct (build_auth_path_levels xp this key adrs Hh)
    as (auth & -> & Hsz & _). simpl.
  destruct (wots_sign_ok key msg
              (set_ots_address (m_leaf_idx this)
                 (set_type OTS_Hash_Address
                    (set_type Hash_Tree_Address adrs))) Hw)
    as (sig & adrs' & ->). simpl.
  exists sig, auth, adrs'. split; [reflexivity|exact Hsz].
Qed.

Lemma update_initialized msg this0 this :
  update xp msg this0 = (Ok (), this) -> m_is_initialized this = true.
Proof.
  unfold update, initialize.
  destruct (m_is_initialized this0) eqn:E0.
  - intros [= <-]. simpl. exact E0.
  - destruct (reserve_unused_leaf_index xp (m_priv_key this0)) as [[i|e] key];
      [|discriminate].
    intros [= <-]. reflexivity.
Qed.

Lemma initialize_done this :
  m_is_initialized this = true -> initialize xp this = (Ok (), this).
Proof. intros E. unfold initialize. rewrite E. reflexivity. Qed.

End SignerFacts.

Section SignerClaims.
Context (xp : XMSS_Parameters) {HP : HashProvider (xmss_element_size xp)}
        {TH : TreeHash}.
Implicit Types (this : XMSS_Signature_Operation) (key : XMSS_PrivateKey)
               (msg : secure_vector).

(** C6. [initialize] does its work once per signing cycle.  On an
    initialized signer it returns and changes nothing.  Otherwise, the
    private key handing out leaf index [i], it computes
    [r = PRF(SK_PRF, toByte(i, 32))], opens H_msg on
    [toByte(2, n) || r || root || toByte(i, n)] ([n] the element size),
    stores [i] and [r] and sets the flag; a second call then changes
    nothing. *)
Theorem initialize_once this :
  (m_is_initialized this = true -> initialize xp this = (Ok (), this))
  /\ (m_is_initialized this = false ->
      forall i key,
        reserve_unused_leaf_index xp (m_priv_key this) = (Ok i, key) ->
        let r := Hash.prf (prf (m_priv_key this)) (toByte i 32) in
        let n := xmss_element_size xp in
        i = unused_leaf_index (m_priv_key this)
        /\ initialize xp this
           = (Ok (),
              mkSigner key r i true
                (mkHash (toByte 2 n ++ r ++ root (m_priv_key this)
                           ++ toByte i n))))
  /\ (forall this',
        initialize xp this = (Ok (), this') ->
        m_is_initialized this' = true
        /\ initialize xp this' = (Ok (), this')).
Proof.
  split; [apply initialize_done|]. split.
  - intros E i key Hres r n.
    destruct (reserve_keeps_secrets xp _ _ _ Hres) as (Hprf & Hroot & _).
    split.
    + unfold reserve_unused_leaf_index in Hres.
      destruct (_ <=? _); congruence.
    + unfold initialize. rewrite E, Hres.
      unfold concat, Hash.h_msg_init. simpl. rewrite Hprf, Hroot. reflexivity.
  - intros this' Hinit.
    assert (Hflag : m_is_initialized this' = true).
    { unfold initialize in Hinit. destruct (m_is_initialized this) eqn:E.
      - congruence.
      - destruct (reserve_unused_leaf_index xp (m_priv_key this))
          as [[i|e] key]; [|discriminate].
        injection Hinit as <-. reflexivity. }
    split; [exact Hflag|apply initialize_done, Hflag].
Qed.

(** C7. When the private key has no leaf index left, [initialize] hands
    the LeafExhausted error to its caller and the signer stays
    uninitialized (only the counter of the key has moved); [update] and
    [sign] fail the same way, no signature bytes come out, and a further
    [sign] fails again. *)
Theorem initialize_leaf_exhausted {R : Type} (rng : R) this key :
  m_is_initialized this = false ->
  reserve_unused_leaf_index xp (m_priv_key this) = (Err LeafExhausted, key) ->
  let this' :=
    mkSigner key (m_randomness this) (m_leaf_idx this) false (m_hash this) in
  initialize xp this = (Err LeafExhausted, this')
  /\ m_is_initialized this' = false
  /\ (forall msg, update xp msg this = (Err LeafExhausted, this'))
  /\ sign xp rng this = (Err LeafExhausted, this', rng)
  /\ exists this'',
       sign xp rng this' = (Err LeafExhausted, this'', rng)
       /\ m_is_initialized this'' = false.
Proof.
  intros E Hres this'.
  assert (Hinit : initialize xp this = (Err LeafExhausted, this')).
  { unfold initialize. rewrite E, Hres. reflexivity. }
  split; [exact Hinit|]. split; [reflexivity|]. split; [|split].
  - intros msg. unfold update. rewrite Hinit. reflexivity.
  - unfold sign. rewrite Hinit. reflexivity.
  - destruct (reserve_exhausted_again xp _ _ Hres) as (key'' & Hres').
    exists (mkSigner key'' (m_randomness this) (m_leaf_idx this) false
              (m_hash this)).
    split; [|reflexivity].
    unfold sign, initialize. simpl. rewrite Hres'. reflexivity.
Qed.


(** C1, as the code has it.  On every signer [update] has been called
    on, [sign] finalizes H_msg to the message hash, computes the XMSS
    signature of that hash, serializes it as
    [i || r || wots_sig || auth_path], resets the initialized flag and
    returns the bytes.  The randomizer buffer is left as it was: it
    still holds the [r] of the signature. *)
Theorem sign_resets_flag_keeps_randomness {R : Type} (rng : R) msg this0 this :
  xmss_params_ok xp ->
  update xp msg this0 = (Ok (), this) ->
  let msg_hash := hash_fn (m_msg_hash (m_hash this)) in
  let finalized :=
    mkSigner (m_priv_key this) (m_randomness this) (m_leaf_idx this) true
             (mkHash []) in
  exists sig_ots auth_path,
    sign_msg xp finalized msg_hash (m_priv_key this)
    = Ok (mkSignature (m_leaf_idx this) (m_randomness this)
            (mkTreeSignature sig_ots auth_path))
    /\ sign xp rng this
       = (Ok (toByte (m_leaf_idx this) 4 ++ m_randomness this
                ++ mjoin sig_ots ++ mjoin auth_path),
          mkSigner (m_priv_key this) (m_randomness this) (m_leaf_idx this)
                   false (mkHash []),
          rng).
Proof.
  intros Hok Hupd msg_hash finalized.
  pose proof (update_initialized xp msg this0 this Hupd) as Hflag.
  destruct (generate_tree_signature_ok xp finalized msg_hash (m_priv_key this)
              zero_address Hok) as (sig_ots & auth_path & adrs' & Hts & _).
  assert (Hsig : sign_msg xp finalized msg_hash (m_priv_key this)
                 = Ok (mkSignature (m_leaf_idx this) (m_randomness this)
                         (mkTreeSignature sig_ots auth_path))).
  { unfold sign_msg. rewrite Hts. reflexivity. }
  exists sig_ots, auth_path. split; [exact Hsig|].
  unfold sign. rewrite (initialize_done xp this Hflag).
  unfold Hash.h_msg_final. rewrite Hflag. simpl.
  fold msg_hash. fold finalized. rewrite Hsig. reflexivity.
Qed.

End SignerClaims.

(** Every supported parameter set is well formed. *)
Lemma supported_params_ok (oid : xmss_algorithm_t) :
  xmss_params_ok (xmss_parameters_of oid).
Proof.
  destruct oid as [[] []]; vm_compute; repeat split; congruence.
Qed.

Lemma initialize_once_witness :
  let this := XMSS_Signature_Operation_new test_key in
  let r := Hash.prf (prf test_key) (toByte 0 32) in
  m_is_initialized this = false
  /\ reserve_unused_leaf_index test_xmss (m_priv_key this)
     = (Ok 0, set_unused_leaf_index 1 test_key)
  /\ initialize test_xmss this
     = (Ok (),
        mkSigner (set_unused_leaf_index 1 test_key) r 0 true
          (mkHash (toByte 2 32 ++ r ++ root test_key ++ toByte 0 32))).
Proof.
  intros this r. split; [reflexivity|]. split; [reflexivity|].
  exact (proj2 (proj1 (proj2 (initialize_once test_xmss this))
                  eq_refl 0 (set_unused_leaf_index 1 test_key) eq_refl)).
Defined.

Lemma initialize_leaf_exhausted_witness :
  let this := XMSS_Signature_Operation_new exhausted_key in
  m_is_initialized this = false
  /\ reserve_unused_leaf_index test_xmss (m_priv_key this)
     = (Err LeafExhausted, set_unused_leaf_index 1025 exhausted_key)
  /\ sign test_xmss () this
     = (Err LeafExhausted,
        mkSigner (set_unused_leaf_index 1025 exhausted_key) [] 0 false
                 (mkHash []),
        ()).
Proof.
  intros this. split; [reflexivity|]. split; [reflexivity|].
  exact (proj1 (proj2 (proj2 (proj2
           (initialize_leaf_exhausted test_xmss () this
              (set_unused_leaf_index 1025 exhausted_key) eq_refl eq_refl))))).
Defined.

Lemma sign_resets_flag_keeps_randomness_witness :
  let this := snd (update test_xmss [97] (XMSS_Signature_Operation_new test_key)) in
  exists signature,
    sign test_xmss () this
    = (Ok signature,
       mkSigner (m_priv_key this) (m_randomness this) (m_leaf_idx this) false
                (mkHash []),
       ()).
Proof.
  intros this.
  destruct (sign_resets_flag_keeps_randomness test_xmss () [97]
              (XMSS_Signature_Operation_new test_key) this)
    as (sig_ots & auth_path & _ & Hsign).
  - apply (supported_params_ok XMSS_SHA2_10_256).
  - vm_compute. reflexivity.
  - eexists. exact Hsign.
Defined.

(** C1 fails as it is written: after [sign] has returned the signature
    of the message "a" under the key of the scenarios, the randomizer
    buffer of the signer still holds the 32 bytes [r] that the signature
    carries after its index, and they are not zero. *)
Lemma sign_zeroizes_randomness_counterexample :
  let this := snd (update test_xmss [97] (XMSS_Signature_Operation_new test_key)) in
  let r := Hash.prf (prf test_key) (toByte 0 32) in
  exists signature this',
    sign test_xmss () this = (Ok signature, this', ())
    /\ take 32 (drop 4 signature) = r
    /\ m_randomness this' = r
    /\ m_randomness this' = m_randomness this
    /\ ~ zeroized (m_randomness this').
Proof.
  intros this r. eexists _, _. split; [vm_compute; reflexivity|].
  split; [vm_compute; reflexivity|]. split; [vm_compute; reflexivity|].
  split; [vm_compute; reflexivity|].
  vm_compute. intros H. inversion H. discriminate.
Qed.

(** * Further properties of the code *)

(** ** The chaining function: rounds, sizes, faults, address *)

Section ChainRounds.
Context (wp : XMSS_WOTS_Parameters) {HP : HashProvider (element_size wp)}.
Implicit Types (x y seed : secure_vector) (adrs : XMSS_Address).

Lemma chain_step_overread seed i x a :
  element_size wp < vsize x ->
  chain_step wp seed i (x, a) = Err BufferOverread.
Proof.
  intros Hx. unfold chain_step, xor_buf. rewrite prf_size.
  pose proof (vsize_nonneg x).
  destruct (Z.leb_spec 0 (vsize x)); [|lia].
  destruct (Z.leb_spec (vsize x) (vsize x)); [|lia].
  destruct (Z.leb_spec (vsize x) (element_size wp)); [lia|]. reflexivity.
Qed.

Lemma chain_rounds_keep_size seed l x a y a' :
  for_each (chain_step wp seed) l (x, a) = Ok (y, a') ->
  vsize x = element_size wp -> vsize y = element_size wp.
Proof.
  revert x a. induction l as [|i l IH]; intros x a; cbn [for_each].
  - intros [= <- _] Hx. exact Hx.
  - destruct (chain_step wp seed i (x, a)) as [[x1 a1]|e] eqn:E; simpl;
      [|discriminate].
    intros Hl _. eapply IH; [exact Hl|]. eapply chain_step_ok_size, E.
Qed.

Lemma chain_rounds_size seed i l x a y a' :
  for_each (chain_step wp seed) (i :: l) (x, a) = Ok (y, a') ->
  vsize y = element_size wp.
Proof.
  cbn [for_each].
  destruct (chain_step wp seed i (x, a)) as [[x1 a1]|e] eqn:E; simpl;
    [|discriminate].
  intros Hl. eapply chain_rounds_keep_size; [exact Hl|].
  eapply chain_step_ok_size, E.
Qed.

Lemma chain_step_address seed i x a y a' :
  chain_step wp seed i (x, a) = Ok (y, a') ->
  a' = set_key_mask_mode Key_Mode (set_hash_address i a).
Proof.
  unfold chain_step. destruct (xor_buf _ _ _); simpl; [|discriminate].
  intros [= _ <-]. reflexivity.
Qed.

(** After at least one round the address carries the index of the last
    round and Key_Mode. *)
Lemma chain_rounds_address seed (k : nat) : forall start x a y a',
  for_each (chain_step wp seed) (seqZ start (Z.of_nat (S k))) (x, a)
  = Ok (y, a') ->
  a' = set_key_mask_mode Key_Mode (set_hash_address (start + Z.of_nat k) a).
Proof.
  induction k as [|k IH]; intros start x a y a'.
  - change (Z.of_nat 1) with 1. rewrite seqZ_cons, seqZ_nil by lia.
    cbn [for_each].
    destruct (chain_step wp seed start (x, a)) as [[x1 a1]|e] eqn:E; simpl;
      [|discriminate].
    intros [= _ <-]. rewrite Z.add_0_r. eapply chain_step_address, E.
  - rewrite seqZ_cons by lia. cbn [for_each].
    destruct (chain_step wp seed start (x, a)) as [[x1 a1]|e] eqn:E; simpl;
      [|discriminate].
    replace (Z.pred (Z.of_nat (S (S k)))) with (Z.of_nat (S k)) by lia.
    intros Hl. apply IH in Hl. apply chain_step_address in E. subst a1 a'.
    unfold set_key_mask_mode, set_hash_address. simpl. do 2 f_equal. lia.
Qed.

(** The rounds of a chain of [a + b] steps are those of [a] steps
    followed by those of [b] steps from [start + a]. *)
Lemma chain_rounds_split start a b :
  0 <= a -> 0 <= b ->
  let w := wots_parameter wp in
  seqZ start (Z.min (start + a + b) w - start)
  = seqZ start (Z.min (start + a) w - start)
    ++ seqZ (start + a) (Z.min (start + a + b) w - (start + a)).
Proof.
  intros Ha Hb w. destruct (Z.le_gt_cases w (start + a)) as [Hle|Hgt].
  - rewrite (seqZ_nil (start + a)) by lia. rewrite app_nil_r.
    f_equal. lia.
  - rewrite (Z.min_l (start + a) w) by lia.
    replace (start + a - start) with a by lia.
    rewrite <- seqZ_app by lia. f_equal. lia.
Qed.

Lemma chain_split_pair x start a b adrs seed :
  is_size_t start -> 0 <= a -> 0 <= b -> is_size_t (start + a + b) ->
  chain wp x start (a + b) adrs seed
  = '(y, adrs1) ← chain wp x start a adrs seed;
    chain wp y (start + a) b adrs1 seed.
Proof.
  intros Hs Ha Hb Hsum. unfold is_size_t in *.
  rewrite !chain_unfold by lia.
  rewrite Z.add_assoc, !size_t_wrap_small by lia.
  rewrite (chain_rounds_split start a b Ha Hb), for_each_app.
  destruct (for_each (chain_step wp seed) _ (x, adrs)) as [[y a1]|e]; simpl;
    [|reflexivity].
  rewrite chain_unfold by lia. rewrite size_t_wrap_small by lia. reflexivity.
Qed.

Lemma chain_value_split x start a b adrs adrs2 seed :
  is_size_t start -> 0 <= a -> 0 <= b -> is_size_t (start + a + b) ->
  same_chain_context adrs adrs2 ->
  chain_value wp x start (a + b) adrs seed
  = (y ← chain_value wp x start a adrs seed;
     chain_value wp y (start + a) b adrs2 seed).
Proof.
  intros Hs Ha Hb Hsum Hctx. unfold chain_value.
  rewrite (chain_split_pair x start a b adrs seed Hs Ha Hb Hsum).
  destruct (chain wp x start a adrs seed) as [[y a1]|e] eqn:E; simpl;
    [|reflexivity].
  fold (chain_value wp y (start + a) b a1 seed).
  fold (chain_value wp y (start + a) b adrs2 seed).
  apply chain_value_context; [unfold is_size_t in Hs; lia|].
  eapply same_chain_context_trans; [|exact Hctx].
  apply same_chain_context_sym.
  eapply chain_keeps_context; [|exact E]. apply Hs.
Qed.

Lemma chain_nil x start steps adrs seed :
  is_size_t start -> steps = 0 \/ wots_parameter wp <= start ->
  chain wp x start steps adrs seed = Ok (x, adrs).
Proof.
  intros Hs Hcase. rewrite chain_unfold by apply Hs. rewrite seqZ_nil; [reflexivity|].
  destruct Hcase as [->|Hw]; [|lia].
  rewrite Z.add_0_r, size_t_wrap_small by exact Hs. lia.
Qed.

(** X1. A chain of zero steps, or one that starts at or beyond [w],
    runs no round: the string and the address come back as they were,
    whatever the length of the string. *)
Theorem chain_no_round x start steps adrs seed :
  is_size_t start ->
  steps = 0 \/ wots_parameter wp <= start ->
  chain wp x start steps adrs seed = Ok (x, adrs).
Proof. intros Hs Hcase. apply chain_nil; assumption. Qed.

(** X2. Chains compose from any start: [a + b] steps from [start] are
    [a] steps from [start] followed by [b] steps from [start + a] on the
    address the first part leaves, clamp included. *)
Theorem chain_split x start a b adrs seed :
  is_size_t start -> 0 <= a -> 0 <= b -> is_size_t (start + a + b) ->
  chain wp x start (a + b) adrs seed
  = '(y, adrs1) ← chain wp x start a adrs seed;
    chain wp y (start + a) b adrs1 seed.
Proof. intros Hs Ha Hb Hsum. apply chain_split_pair; assumption. Qed.

(** X3. Steps asked beyond the clamp are ignored: from [start <= w], any
    step count of at least [w - start] gives what [w - start] steps
    give. *)
Theorem chain_saturates x start steps adrs seed :
  is_size_t start -> is_size_t (start + steps) ->
  is_size_t (wots_parameter wp) ->
  start <= wots_parameter wp -> wots_parameter wp - start <= steps ->
  chain wp x start steps adrs seed
  = chain wp x start (wots_parameter wp - start) adrs seed.
Proof.
  intros Hs Hsum Hw Hle Hsteps. unfold is_size_t in *.
  rewrite !chain_unfold by lia.
  replace (start + (wots_parameter wp - start)) with (wots_parameter wp) by lia.
  rewrite !size_t_wrap_small by lia. f_equal. f_equal. lia.
Qed.

(** X4. [chain] preserves the length of an n-byte string, and on a
    shorter one it either runs no round and returns the string and the
    address untouched, or returns n bytes. *)
Theorem chain_output_size x start steps adrs seed :
  is_size_t start ->
  vsize x <= element_size wp ->
  exists y adrs',
    chain wp x start steps adrs seed = Ok (y, adrs')
    /\ ((y = x /\ adrs' = adrs) \/ vsize y = element_size wp)
    /\ (vsize x = element_size wp -> vsize y = element_size wp).
Proof.
  intros Hs Hx. rewrite chain_unfold by apply Hs.
  destruct (chain_rounds_ok wp seed
              (seqZ start (Z.min (size_t_wrap (start + steps))
                             (wots_parameter wp) - start)) x adrs Hx)
    as (y & adrs' & Hrun & _).
  exists y, adrs'. split; [exact Hrun|]. split.
  - destruct (seqZ start _) as [|i l].
    + left. cbn [for_each] in Hrun. injection Hrun as <- <-. split; reflexivity.
    + right. eapply chain_rounds_size, Hrun.
  - intros Hn. eapply chain_rounds_keep_size; [exact Hrun|exact Hn].
Qed.

(** When [chain] faults. *)
Lemma chain_overread x start steps adrs seed e :
  is_size_t start -> is_size_t steps -> is_size_t (start + steps) ->
  chain wp x start steps adrs seed = Err e
  <-> e = BufferOverread /\ element_size wp < vsize x
      /\ 0 < steps /\ start < wots_parameter wp.
Proof.
  intros Hs Hsteps Hsum. unfold is_size_t in *. split.
  - intros Hrun.
    destruct (chain_fault wp x start steps adrs seed e ltac:(lia) Hrun)
      as (-> & Hx).
    split; [reflexivity|]. split; [exact Hx|].
    destruct (Z.lt_ge_cases 0 steps) as [Hpos|Hz];
      [destruct (Z.lt_ge_cases start (wots_parameter wp)) as [Hlt|Hge]|].
    + lia.
    + rewrite chain_nil in Hrun by (unfold is_size_t; (lia || (right; lia))).
      discriminate.
    + rewrite chain_nil in Hrun by (unfold is_size_t; (lia || (left; lia))).
      discriminate.
  - intros (-> & Hx & Hpos & Hlt). rewrite chain_unfold by lia.
    rewrite size_t_wrap_small by lia. rewrite seqZ_cons by lia.
    cbn [for_each]. rewrite (chain_step_overread seed start x adrs Hx).
    reflexivity.
Qed.

(** X5. The only fault of [chain] is the overread of the n-byte mask,
    and it happens exactly when the string is longer than n bytes and at
    least one round runs. *)
Theorem chain_overread_iff x start steps adrs seed e :
  is_size_t start -> is_size_t steps -> is_size_t (start + steps) ->
  chain wp x start steps adrs seed = Err e
  <-> e = BufferOverread /\ element_size wp < vsize x
      /\ 0 < steps /\ start < wots_parameter wp.
Proof. apply chain_overread. Qed.

(** X6. When [chain] has run a round it leaves the address with
    hash_address set to the index of its last round and key_and_mask set
    to Key_Mode, every other word as it was. *)
Theorem chain_final_address x start steps adrs seed y adrs' :
  is_size_t start -> is_size_t steps -> is_size_t (start + steps) ->
  0 < steps -> start < wots_parameter wp ->
  chain wp x start steps adrs seed = Ok (y, adrs') ->
  adrs'
  = set_key_mask_mode Key_Mode
      (set_hash_address (Z.min (start + steps) (wots_parameter wp) - 1) adrs).
Proof.
  intros Hs Hsteps Hsum Hpos Hlt. unfold is_size_t in *.
  rewrite chain_unfold by lia. rewrite size_t_wrap_small by lia.
  set (n := Z.min (start + steps) (wots_parameter wp) - start).
  replace n with (Z.of_nat (S (Z.to_nat (n - 1)))) by (unfold n; lia).
  intros Hrun. apply chain_rounds_address in Hrun. rewrite Hrun.
  do 2 f_equal. unfold n. lia.
Qed.

End ChainRounds.

(** ** Recovery of the public key: what the loop leaves behind *)

Section RecoveryRounds.
Context (wp : XMSS_WOTS_Parameters) {HP : HashProvider (element_size wp)}.
Implicit Types (x y seed msg b : secure_vector) (adrs : XMSS_Address)
               (res sig pk : wots_keysig_t).

Lemma pkfs_body_context b seed i res adrs res' adrs' :
  Forall (fun d => 0 <= d) b ->
  pkfs_body wp b seed i (res, adrs) = Ok (res', adrs') ->
  same_chain_context adrs' (set_chain_address i adrs).
Proof.
  intros Hdig. unfold pkfs_body.
  destruct (at_index res i) as [x|e1]; simpl; [|discriminate].
  destruct (at_index b i) as [d|e2] eqn:E2; simpl; [|discriminate].
  destruct (chain wp x d _ (set_chain_address i adrs) seed)
    as [[y a1]|e3] eqn:E3; simpl; [|discriminate].
  intros [= _ <-]. apply same_chain_context_sym.
  eapply chain_keeps_context; [|exact E3].
  apply at_index_Ok_inv in E2. exact (Forall_lookup_1 _ _ _ _ Hdig E2).
Qed.

Lemma set_chain_address_over i adrs1 adrs :
  same_chain_context adrs1 (set_chain_address i adrs) ->
  forall m, same_chain_context (set_chain_address m adrs1)
                               (set_chain_address m adrs).
Proof.
  intros (H0 & H1 & H2 & H3 & H4 & _) m. simpl in *.
  repeat split; assumption.
Qed.

(** After at least one round of the loop the address carries the index
    of the last round as its chain address. *)
Lemma pkfs_rounds_address b seed (k : nat) : forall i res adrs res' adrs',
  Forall (fun d => 0 <= d) b ->
  for_each (pkfs_body wp b seed) (seqZ i (Z.of_nat (S k))) (res, adrs)
  = Ok (res', adrs') ->
  same_chain_context adrs' (set_chain_address (i + Z.of_nat k) adrs).
Proof.
  induction k as [|k IH]; intros i res adrs res' adrs' Hdig.
  - change (Z.of_nat 1) with 1. rewrite seqZ_cons, seqZ_nil by lia.
    cbn [for_each].
    destruct (pkfs_body wp b seed i (res, adrs)) as [[r1 a1]|e] eqn:E; simpl;
      [|discriminate].
    intros [= _ <-]. rewrite Z.add_0_r. eapply pkfs_body_context; eassumption.
  - rewrite seqZ_cons by lia. cbn [for_each].
    destruct (pkfs_body wp b seed i (res, adrs)) as [[r1 a1]|e] eqn:E; simpl;
      [|discriminate].
    replace (Z.pred (Z.of_nat (S (S k)))) with (Z.of_nat (S k)) by lia.
    intros Hl. apply IH in Hl; [|exact Hdig].
    eapply same_chain_context_trans; [exact Hl|].
    replace (Z.succ i + Z.of_nat k) with (i + Z.of_nat (S k)) by lia.
    eapply set_chain_address_over, pkfs_body_context; eassumption.
Qed.

(** What a returning call has done to a signature of at least [len]
    strings. *)
Lemma pkfs_returns msg sig adrs seed pk adrs' :
  wots_params_ok wp -> len wp <= vsize sig ->
  pub_key_from_signature wp msg sig adrs seed = Ok (pk, adrs') ->
  length pk = length sig /\ same_ots_context adrs' adrs
  /\ (forall j : nat, len wp <= Z.of_nat j -> pk !! j = sig !! j)
  /\ (forall j : nat, Z.of_nat j < len wp ->
        exists x d y,
          sig !! j = Some x /\ message_digits wp msg !! j = Some d
          /\ is_digit wp d
          /\ chain_value wp x d (wots_parameter wp - 1 - d)
               (set_chain_address (Z.of_nat j) adrs) seed = Ok y
          /\ pk !! j = Some y).
Proof.
  intros Hok Hlen. pose proof Hok as (Hn & Hw & Hl1 & Hl2 & Hlmax).
  assert (Hb : vsize (message_digits wp msg) = len wp)
    by (apply message_digits_size; assumption).
  assert (Hlen0 : 0 <= len wp) by (unfold len; lia).
  rewrite pkfs_unfold by exact Hlmax.
  pose proof (pkfs_rounds wp (message_digits wp msg) seed adrs
                (Z.to_nat (len wp)) 0 sig adrs
                (message_digits_nonneg wp msg Hok)) as Hr.
  rewrite Z2Nat.id in Hr by assumption.
  specialize (Hr ltac:(lia) ltac:(lia) ltac:(lia) ltac:(repeat split)).
  destruct (for_each _ (seqZ 0 (len wp)) (sig, adrs)) as [[pk0 adrs0]|e];
    [|discriminate].
  intros [= <- <-]. destruct Hr as (Hlenpk & Hctx & Hframe & Helems).
  split; [exact Hlenpk|]. split; [exact Hctx|]. split.
  - intros j Hj. apply Hframe. right. lia.
  - intros j Hj.
    destruct (Helems j) as (x & d & y & Hx & Hd & Hv & Hy); [lia|].
    assert (Hdig : is_digit wp d).
    { eapply Forall_lookup_1; [apply message_digits_digits; exact Hok|exact Hd]. }
    exists x, d, y. split; [exact Hx|]. split; [exact Hd|].
    split; [exact Hdig|]. split; [|exact Hy].
    rewrite size_t_wrap_small in Hv; [exact Hv|].
    unfold is_digit in Hdig. unfold SIZE_BITS in *. lia.
Qed.

(** The string of a signature that ends a chain of [d] rounds from a
    secret is carried on to the end of the whole chain of [w - 1]
    rounds. *)
Lemma pkfs_completes msg sig adrs seed pk adrs' (j : nat) sk d s adrsS :
  wots_params_ok wp -> len wp <= vsize sig ->
  pub_key_from_signature wp msg sig adrs seed = Ok (pk, adrs') ->
  Z.of_nat j < len wp ->
  message_digits wp msg !! j = Some d ->
  same_chain_context adrsS (set_chain_address (Z.of_nat j) adrs) ->
  chain_value wp sk 0 d adrsS seed = Ok s ->
  sig !! j = Some s ->
  exists y, pk !! j = Some y
            /\ chain_value wp sk 0 (wots_parameter wp - 1) adrsS seed = Ok y.
Proof.
  intros Hok Hlen Hrun Hj Hd Hctx Hs Hsig.
  destruct (pkfs_returns msg sig adrs seed pk adrs' Hok Hlen Hrun)
    as (_ & _ & _ & Helems).
  destruct (Helems j Hj) as (x & d' & y & Hx & Hd' & Hdig & Hv & Hy).
  assert (d' = d) by congruence. assert (x = s) by congruence. subst d' x.
  exists y. split; [exact Hy|].
  pose proof Hok as (_ & Hw & _). unfold is_digit in Hdig.
  replace (wots_parameter wp - 1) with (d + (wots_parameter wp - 1 - d)) by lia.
  rewrite (chain_value_split wp sk 0 d (wots_parameter wp - 1 - d) adrsS
             (set_chain_address (Z.of_nat j) adrs) seed);
    [|unfold is_size_t, SIZE_BITS in *; lia..|exact Hctx].
  rewrite Hs. simpl. exact Hv.
Qed.

(** The loop reads past the n-byte mask exactly when it meets a string
    longer than n bytes whose chain has a round to run. *)
Lemma pkfs_rounds_overread b seed (k : nat) : forall i res adrs e,
  Forall (is_digit wp) b -> wots_parameter wp < 2 ^ SIZE_BITS ->
  0 <= i -> i + Z.of_nat k <= vsize res -> i + Z.of_nat k <= vsize b ->
  for_each (pkfs_body wp b seed) (seqZ i (Z.of_nat k)) (res, adrs) = Err e
  <-> e = BufferOverread
      /\ exists (j : nat) x d,
           i <= Z.of_nat j < i + Z.of_nat k
           /\ res !! j = Some x /\ b !! j = Some d
           /\ element_size wp < vsize x /\ d < wots_parameter wp - 1.
Proof.
  induction k as [|k IH]; intros i res adrs e Hdig Hw Hi Hres Hb.
  - rewrite seqZ_nil by lia. cbn [for_each]. split; [discriminate|].
    intros (_ & j & _ & _ & Hj & _). lia.
  - rewrite seqZ_cons by lia. cbn [for_each].
    replace (Z.pred (Z.of_nat (S k))) with (Z.of_nat k) by lia.
    replace (Z.succ i) with (i + 1) by lia.
    destruct (lookup_in_range res i) as [x Hx]; [lia|].
    destruct (lookup_in_range b i) as [d Hd]; [lia|].
    pose proof (Forall_lookup_1 _ _ _ _ Hdig Hd) as Hd0. unfold is_digit in Hd0.
    rewrite (pkfs_body_eval wp b seed i res adrs x d Hi Hx Hd).
    rewrite size_t_wrap_small by lia.
    pose proof (fun e' => chain_overread wp x d (wots_parameter wp - 1 - d)
                            (set_chain_address i adrs) seed e'
                            ltac:(unfold is_size_t; lia)
                            ltac:(unfold is_size_t; lia)
                            ltac:(unfold is_size_t; lia)) as Hchain.
    destruct (chain wp x d _ (set_chain_address i adrs) seed)
      as [[y a1]|e1] eqn:E; simpl.
    + assert (Hnot : ~ (element_size wp < vsize x /\ d < wots_parameter wp - 1)).
      { intros [Hbig Hlt].
        assert (Hc : Ok (y, a1) = Err BufferOverread :> outcome _).
        { apply (Hchain BufferOverread). split; [reflexivity|].
          split; [exact Hbig|]. lia. }
        discriminate. }
      assert (Hsz1 : vsize (<[Z.to_nat i := y]> res) = vsize res)
        by (unfold vsize; rewrite length_insert; reflexivity).
      rewrite (IH (i + 1) (<[Z.to_nat i := y]> res) a1 e Hdig Hw) by lia.
      split; intros (-> & j & x' & d' & Hj & Hx' & Hd' & Hbig & Hlt);
        (split; [reflexivity|]); exists j, x', d'.
      * rewrite list_lookup_insert_ne in Hx' by lia.
        split; [lia|]. repeat split; assumption.
      * destruct (decide (j = Z.to_nat i)) as [->|Hne].
        { exfalso. apply Hnot.
          assert (x' = x) by congruence. assert (d' = d) by congruence.
          subst. split; assumption. }
        rewrite list_lookup_insert_ne by lia.
        split; [lia|]. repeat split; assumption.
    + destruct (proj1 (Hchain e1) eq_refl) as (-> & Hbig & Hpos & _).
      split.
      * intros [= <-]. split; [reflexivity|]. exists (Z.to_nat i), x, d.
        split; [lia|]. split; [exact Hx|]. split; [exact Hd|].
        split; [exact Hbig|lia].
      * intros (-> & _). reflexivity.
Qed.

(** X7. On a signature of at least [len] strings the only fault of
    [pub_key_from_signature] is the overread of the n-byte mask in
    [chain], and it happens exactly when one of the first [len] strings
    is longer than n bytes and the digit of the message there is below
    [w - 1]; otherwise the function returns. *)
Theorem pub_key_from_signature_overread_iff msg sig adrs seed e :
  wots_params_ok wp -> len wp <= vsize sig ->
  pub_key_from_signature wp msg sig adrs seed = Err e
  <-> e = BufferOverread
      /\ exists (j : nat) x d,
           Z.of_nat j < len wp
           /\ sig !! j = Some x /\ message_digits wp msg !! j = Some d
           /\ element_size wp < vsize x /\ d < wots_parameter wp - 1.
Proof.
  intros Hok Hlen. pose proof Hok as (Hn & Hw & Hl1 & Hl2 & Hlmax).
  assert (Hb : vsize (message_digits wp msg) = len wp)
    by (apply message_digits_size; assumption).
  assert (Hlen0 : 0 <= len wp) by (unfold len; lia).
  rewrite pkfs_unfold by exact Hlmax.
  pose proof (pkfs_rounds_overread (message_digits wp msg) seed
                (Z.to_nat (len wp)) 0 sig adrs e
                (message_digits_digits wp msg Hok)) as Hr.
  rewrite Z2Nat.id in Hr by assumption.
  rewrite Hr by lia.
  split; intros (-> & j & x & d & Hj & Hrest); (split; [reflexivity|]);
    exists j, x, d; (split; [lia|exact Hrest]).
Qed.

(** X8. [pub_key_from_signature] works on the first [len] strings only:
    handed a longer signature it returns a vector of the same size whose
    strings from index [len] on are those of the signature, and the
    layer, tree, type and OTS words of the address are those it was
    given. *)
Theorem pub_key_from_signature_keeps_tail msg sig adrs seed pk adrs' :
  wots_params_ok wp -> len wp <= vsize sig ->
  pub_key_from_signature wp msg sig adrs seed = Ok (pk, adrs') ->
  vsize pk = vsize sig
  /\ same_ots_context adrs' adrs
  /\ forall j : nat, len wp <= Z.of_nat j -> pk !! j = sig !! j.
Proof.
  intros Hok Hlen Hrun.
  destruct (pkfs_returns msg sig adrs seed pk adrs' Hok Hlen Hrun)
    as (Hsz & Hctx & Hframe & _).
  split; [unfold vsize; rewrite Hsz; reflexivity|]. split; assumption.
Qed.

(** X9. The address [pub_key_from_signature] hands back has the index of
    the last chain, [len - 1], as its chain address, and every word
    before it as in the address it was given. *)
Theorem pub_key_from_signature_final_address msg sig adrs seed pk adrs' :
  wots_params_ok wp -> 0 < len wp ->
  pub_key_from_signature wp msg sig adrs seed = Ok (pk, adrs') ->
  same_chain_context adrs' (set_chain_address (len wp - 1) adrs).
Proof.
  intros Hok Hpos. rewrite pkfs_unfold by apply Hok.
  replace (len wp) with (Z.of_nat (S (Z.to_nat (len wp - 1)))) at 1 by lia.
  intros Hrun. apply pkfs_rounds_address in Hrun;
    [|apply message_digits_nonneg, Hok].
  rewrite Z2Nat.id, Z.add_0_l in Hrun by lia. exact Hrun.
Qed.

(** X10. Recovery completes the chains: when string [j] of the signature
    is the value of the chain of [b[j]] rounds from a secret [sk], under
    the chain address [j], string [j] of the recovered key is the value
    of the full chain of [w - 1] rounds from [sk], whatever the message
    and its digit. *)
Theorem pub_key_from_signature_completes_chain
    msg sig adrs seed pk adrs' (j : nat) sk d s adrsS :
  wots_params_ok wp -> len wp <= vsize sig ->
  pub_key_from_signature wp msg sig adrs seed = Ok (pk, adrs') ->
  Z.of_nat j < len wp ->
  message_digits wp msg !! j = Some d ->
  same_chain_context adrsS (set_chain_address (Z.of_nat j) adrs) ->
  chain_value wp sk 0 d adrsS seed = Ok s ->
  sig !! j = Some s ->
  exists y, pk !! j = Some y
            /\ chain_value wp sk 0 (wots_parameter wp - 1) adrsS seed = Ok y.
Proof. apply pkfs_completes. Qed.

(** X11. Where the digit of the message is [w - 1] no round is left to
    run: the string of the signature goes into the key as it is, and its
    length is never looked at. *)
Theorem pub_key_from_signature_top_digit msg sig adrs seed pk adrs' (j : nat) :
  wots_params_ok wp -> len wp <= vsize sig ->
  pub_key_from_signature wp msg sig adrs seed = Ok (pk, adrs') ->
  Z.of_nat j < len wp ->
  message_digits wp msg !! j = Some (wots_parameter wp - 1) ->
  pk !! j = sig !! j.
Proof.
  intros Hok Hlen Hrun Hj Hd.
  destruct (pkfs_returns msg sig adrs seed pk adrs' Hok Hlen Hrun)
    as (_ & _ & _ & Helems).
  destruct (Helems j Hj) as (x & d & y & Hx & Hd' & Hdig & Hv & Hy).
  assert (d = wots_parameter wp - 1) by congruence. subst d.
  unfold chain_value in Hv. rewrite chain_nil in Hv.
  - simpl in Hv. congruence.
  - pose proof Hok as (_ & Hw & _). unfold is_size_t. lia.
  - left. lia.
Qed.

End RecoveryRounds.

(** ** The authentication path: where its nodes sit in the tree *)

Lemma lxor_1_half q : Z.lxor q 1 / 2 = q / 2.
Proof.
  change 2 with (2 ^ 1). rewrite <- !Z.shiftr_div_pow2 by lia.
  rewrite Z.shiftr_lxor. change (Z.shiftr 1 1) with 0.
  apply Z.lxor_0_r.
Qed.

(** The subtree of height [j] that starts at [sibling_start i j] is the
    sibling of the subtree of height [j] that holds the leaf [i]. *)
Lemma sibling_start_geometry i j h :
  0 <= j < h -> 0 <= i < 2 ^ h ->
  let s := sibling_start i j in
  s mod 2 ^ j = 0
  /\ 0 <= s /\ s + 2 ^ j <= 2 ^ h
  /\ ~ (s <= i < s + 2 ^ j)
  /\ s / 2 ^ (j + 1) = i / 2 ^ (j + 1).
Proof.
  intros Hj Hi s. unfold sibling_start in s.
  assert (HP : 0 < 2 ^ j) by (apply Z.pow_pos_nonneg; lia).
  set (q := i / 2 ^ j) in *.
  assert (Hq0 : 0 <= q) by (apply Z.div_pos; lia).
  assert (Hsplit : 2 ^ h = 2 * 2 ^ (h - 1 - j) * 2 ^ j).
  { rewrite <- Z.mul_assoc, <- Z.pow_add_r, <- Z.pow_succ_r by lia.
    f_equal. lia. }
  assert (HM : 0 < 2 ^ (h - 1 - j)) by (apply Z.pow_pos_nonneg; lia).
  assert (Hq : q < 2 * 2 ^ (h - 1 - j)).
  { apply Z.div_lt_upper_bound; [lia|]. rewrite Z.mul_comm. lia. }
  pose proof (Z.div_mod i (2 ^ j) ltac:(lia)) as Hdm. fold q in Hdm.
  pose proof (Z.mod_pos_bound i (2 ^ j) HP) as Hr.
  pose proof (Z.div_mod q 2 ltac:(lia)) as Hdq.
  pose proof (Z.mod_pos_bound q 2 ltac:(lia)) as Hrq.
  assert (Hhalf : s / 2 ^ (j + 1) = i / 2 ^ (j + 1)).
  { rewrite Z.pow_add_r, Z.pow_1_r by lia.
    rewrite <- !Z.div_div by lia. unfold s.
    rewrite Z.div_mul by lia. fold q. apply lxor_1_half. }
  split; [apply Z.mod_mul; lia|].
  destruct (Z.eq_dec (q mod 2) 0) as [He|Ho].
  - assert (Hs : s = (q + 1) * 2 ^ j)
      by (unfold s; rewrite lxor_1_even by exact He; reflexivity).
    split; [nia|]. split; [|split; [nia|exact Hhalf]].
    assert (q + 2 <= 2 * 2 ^ (h - 1 - j)) by lia. nia.
  - assert (Hs : s = (q - 1) * 2 ^ j)
      by (unfold s; rewrite lxor_1_odd by lia; reflexivity).
    assert (Hq2 : 0 <= q / 2) by (apply Z.div_pos; lia).
    assert (Hq1 : 1 <= q) by lia.
    split; [nia|]. split; [nia|]. split; [nia|exact Hhalf].
Qed.

Lemma div_pow2_coarser i1 i2 j0 j :
  0 <= j0 <= j -> i1 / 2 ^ j0 = i2 / 2 ^ j0 -> i1 / 2 ^ j = i2 / 2 ^ j.
Proof.
  intros Hj Heq. replace j with (j0 + (j - j0)) by lia.
  assert (0 < 2 ^ j0) by (apply Z.pow_pos_nonneg; lia).
  assert (0 < 2 ^ (j - j0)) by (apply Z.pow_pos_nonneg; lia).
  rewrite Z.pow_add_r by lia. rewrite <- !Z.div_div by lia.
  rewrite Heq. reflexivity.
Qed.

Section AuthPathGeometry.
Context (xp : XMSS_Parameters) {TH : TreeHash}.
Implicit Types (this : XMSS_Signature_Operation) (key : XMSS_PrivateKey)
               (adrs : XMSS_Address) (auth : wots_keysig_t).

(** X12. For a leaf of the tree, node [j] of the authentication path is
    the root of the sibling subtree: the [2^j] leaves from
    [(floor(i / 2^j) XOR 1) * 2^j] lie inside the tree, do not include
    the leaf [i], and have the same parent at height [j + 1] as the
    subtree of the leaf. *)
Theorem build_auth_path_siblings this key adrs :
  0 <= tree_height xp <= 31 ->
  0 <= m_leaf_idx this < 2 ^ tree_height xp ->
  exists auth,
    build_auth_path xp this key adrs
    = Ok (auth, set_type Hash_Tree_Address adrs)
    /\ forall j, 0 <= j < tree_height xp ->
         let s := sibling_start (m_leaf_idx this) j in
         auth !! Z.to_nat j
         = Some (tree_hash key s j (set_type Hash_Tree_Address adrs))
         /\ 0 <= s /\ s + 2 ^ j <= 2 ^ tree_height xp
         /\ ~ (s <= m_leaf_idx this < s + 2 ^ j)
         /\ s / 2 ^ (j + 1) = m_leaf_idx this / 2 ^ (j + 1).
Proof.
  intros Hh Hi.
  destruct (build_auth_path_levels xp this key adrs Hh)
    as (auth & Hrun & Hsz & Helems).
  exists auth. split; [exact Hrun|]. intros j Hj s.
  destruct (sibling_start_geometry (m_leaf_idx this) j (tree_height xp) Hj Hi)
    as (_ & Hs0 & Hs1 & Hout & Hpar).
  split; [|repeat split; assumption].
  rewrite (Helems (Z.to_nat j)) by lia. rewrite Z2Nat.id by lia.
  unfold auth_node. fold (sibling_start (m_leaf_idx this) j). fold s.
  rewrite size_t_wrap_small; [reflexivity|].
  assert (2 ^ tree_height xp <= 2 ^ 31) by (apply Z.pow_le_mono_r; lia).
  assert (0 < 2 ^ j) by (apply Z.pow_pos_nonneg; lia).
  unfold SIZE_BITS. lia.
Qed.

(** X13. The nodes of the path from level [j0] upwards depend on the
    leaf index only through [floor(i / 2^j0)]: two leaves under the same
    subtree of height [j0] have the same path from there on, and the
    other members of the signer play no part. *)
Theorem build_auth_path_shared_levels this1 this2 key adrs auth1 auth2 a1 a2 j0 :
  0 <= tree_height xp <= 31 -> 0 <= j0 ->
  m_leaf_idx this1 / 2 ^ j0 = m_leaf_idx this2 / 2 ^ j0 ->
  build_auth_path xp this1 key adrs = Ok (auth1, a1) ->
  build_auth_path xp this2 key adrs = Ok (auth2, a2) ->
  a1 = a2
  /\ forall j : nat, j0 <= Z.of_nat j -> auth1 !! j = auth2 !! j.
Proof.
  intros Hh Hj0 Heq.
  destruct (build_auth_path_levels xp this1 key adrs Hh)
    as (u1 & -> & Hsz1 & Hel1).
  destruct (build_auth_path_levels xp this2 key adrs Hh)
    as (u2 & -> & Hsz2 & Hel2).
  intros [= <- <-] [= <- <-]. split; [reflexivity|]. intros j Hj.
  destruct (Z.lt_ge_cases (Z.of_nat j) (tree_height xp)) as [Hlt|Hge].
  - rewrite Hel1, Hel2 by exact Hlt. unfold auth_node.
    rewrite (div_pow2_coarser (m_leaf_idx this1) (m_leaf_idx this2) j0
               (Z.of_nat j)) by (lia || exact Heq).
    reflexivity.
  - unfold vsize in *.
    rewrite !lookup_ge_None_2 by lia. reflexivity.
Qed.

(** X14. [build_auth_path] overwrites the type of the address it is
    given and clears the words after it: only the layer and tree words
    of the incoming address reach the result. *)
Theorem build_auth_path_reads_tree_words this key adrs1 adrs2 :
  adrs_layer adrs1 = adrs_layer adrs2 ->
  adrs_tree_hi adrs1 = adrs_tree_hi adrs2 ->
  adrs_tree_lo adrs1 = adrs_tree_lo adrs2 ->
  build_auth_path xp this key adrs1 = build_auth_path xp this key adrs2.
Proof.
  intros H0 H1 H2. unfold build_auth_path, set_type.
  rewrite H0, H1, H2. reflexivity.
Qed.

End AuthPathGeometry.

(** ** Signing and recovery together *)

Lemma toByte_length x k : 0 <= k -> length (toByte x k) = Z.to_nat k.
Proof. intros Hk. unfold toByte. rewrite length_fmap, length_seqZ. reflexivity. Qed.

Lemma toByte_4_inj a b :
  0 <= a < 2 ^ 32 -> 0 <= b < 2 ^ 32 -> toByte a 4 = toByte b 4 -> a = b.
Proof.
  intros Ha Hb. unfold toByte.
  change (seqZ 0 4) with [0; 1; 2; 3]. cbn [fmap list_fmap].
  change (256 ^ (4 - 1 - 0)) with 16777216.
  change (256 ^ (4 - 1 - 1)) with 65536.
  change (256 ^ (4 - 1 - 2)) with 256.
  change (256 ^ (4 - 1 - 3)) with 1.
  change (2 ^ 32) with 4294967296 in *.
  intros [= H3 H2 H1 H0].
  rewrite !Z.div_1_r in H0.
  Z.div_mod_to_equations. lia.
Qed.

Section SignAndRecover.
Context (xp : XMSS_Parameters) {HP : HashProvider (xmss_element_size xp)}
        {TH : TreeHash}.
Implicit Types (this : XMSS_Signature_Operation) (key : XMSS_PrivateKey)
               (msg b : secure_vector) (adrs : XMSS_Address)
               (sig pk : wots_keysig_t).

Lemma wots_secret_context key a adrs0 j :
  same_ots_context a adrs0 ->
  wots_secret xp key a j = wots_secret xp key adrs0 j.
Proof.
  intros (H0 & H1 & H2 & H3 & H4).
  unfold wots_secret, set_key_mask_mode, set_hash_address, set_chain_address.
  simpl. rewrite H0, H1, H2, H3, H4. reflexivity.
Qed.

Lemma chain_keeps_size x start steps a seed y a' :
  0 <= start ->
  chain (xmss_wots xp) x start steps a seed = Ok (y, a') ->
  vsize x = xmss_element_size xp -> vsize y = xmss_element_size xp.
Proof.
  intros Hs. rewrite chain_unfold by exact Hs.
  apply (chain_rounds_keep_size (xmss_wots xp)).
Qed.

Lemma wots_sign_body_eval key b j sig a d :
  0 <= j -> b !! Z.to_nat j = Some d ->
  wots_sign_body xp key b j (sig, a)
  = '(x, a') ← chain (xmss_wots xp) (wots_secret xp key a j) 0 d
                     (set_chain_address j a) (public_seed key);
    Ok (sig ++ [x], a').
Proof.
  intros Hj Hd. unfold wots_sign_body. rewrite (at_index_Ok b j d Hj Hd).
  reflexivity.
Qed.

(** What [k] rounds of WOTS+ sign from index [j0] append to the
    signature: the values of the chains of [b[j]] rounds from the
    secret strings, each of n bytes. *)
Lemma wots_sign_rounds key b adrs0 (k : nat) : forall j0 sig a,
  0 <= j0 -> j0 + Z.of_nat k <= vsize b ->
  same_ots_context a adrs0 ->
  exists tail a',
    for_each (wots_sign_body xp key b) (seqZ j0 (Z.of_nat k)) (sig, a)
    = Ok (sig ++ tail, a')
    /\ length tail = k
    /\ forall m : nat, (m < k)%nat ->
         exists d y,
           b !! (Z.to_nat j0 + m)%nat = Some d
           /\ chain_value (xmss_wots xp)
                (wots_secret xp key adrs0 (j0 + Z.of_nat m)) 0 d
                (set_chain_address (j0 + Z.of_nat m) adrs0) (public_seed key)
              = Ok y
           /\ vsize y = xmss_element_size xp
           /\ tail !! m = Some y.
Proof.
  induction k as [|k IH]; intros j0 sig a Hj0 Hb Hctx.
  - exists [], a. rewrite seqZ_nil by lia. cbn [for_each].
    rewrite app_nil_r. split; [reflexivity|]. split; [reflexivity|].
    intros m Hm. lia.
  - rewrite seqZ_cons by lia. cbn [for_each].
    replace (Z.pred (Z.of_nat (S k))) with (Z.of_nat k) by lia.
    replace (Z.succ j0) with (j0 + 1) by lia.
    destruct (lookup_in_range b j0) as [d Hd]; [lia|].
    rewrite (wots_sign_body_eval key b j0 sig a d Hj0 Hd).
    rewrite (wots_secret_context key a adrs0 j0 Hctx).
    destruct (chain_ok (xmss_wots xp) (wots_secret xp key adrs0 j0) 0 d
                (set_chain_address j0 a) (public_seed key))
      as (x & a1 & E & _).
    { lia. }
    { unfold wots_secret. rewrite (prf_size (xmss_wots xp)). lia. }
    rewrite E. simpl.
    assert (Hctx1 : same_ots_context a1 adrs0).
    { eapply chain_context_ots; [exact Hctx|].
      eapply chain_keeps_context; [|exact E]. lia. }
    assert (Hval : chain_value (xmss_wots xp) (wots_secret xp key adrs0 j0) 0 d
                     (set_chain_address j0 adrs0) (public_seed key) = Ok x).
    { rewrite <- (chain_value_context (xmss_wots xp) _ 0 _
                    (set_chain_address j0 a));
        [|lia|apply set_chain_address_context, Hctx].
      unfold chain_value. rewrite E. reflexivity. }
    assert (Hsz : vsize x = xmss_element_size xp).
    { eapply chain_keeps_size; [|exact E|]; [lia|].
      unfold wots_secret. apply (prf_size (xmss_wots xp)). }
    destruct (IH (j0 + 1) (sig ++ [x]) a1) as (tail & a' & Hrun & Hlen & Hel);
      [lia..|exact Hctx1|].
    exists (x :: tail), a'. split.
    { rewrite Hrun. rewrite <- app_assoc. reflexivity. }
    split; [simpl; rewrite Hlen; reflexivity|].
    intros [|m] Hm.
    + exists d, x. rewrite Nat.add_0_r, Z.add_0_r.
      split; [exact Hd|]. split; [exact Hval|]. split; [exact Hsz|reflexivity].
    + destruct (Hel m) as (d' & y & Hd' & Hv & Hy & Ht); [lia|].
      exists d', y.
      replace (Z.to_nat j0 + S m)%nat with (Z.to_nat (j0 + 1) + m)%nat by lia.
      replace (j0 + Z.of_nat (S m)) with (j0 + 1 + Z.of_nat m) by lia.
      split; [exact Hd'|]. split; [exact Hv|]. split; [exact Hy|exact Ht].
Qed.

Lemma pkfs_sized_returns msg sig adrs seed :
  wots_params_ok (xmss_wots xp) -> len (xmss_wots xp) <= vsize sig ->
  Forall (fun x => vsize x <= xmss_element_size xp) sig ->
  exists pk adrs',
    pub_key_from_signature (xmss_wots xp) msg sig adrs seed = Ok (pk, adrs').
Proof.
  intros Hok Hlen Hsized. pose proof Hok as (Hn & Hw & Hl1 & Hl2 & Hlmax).
  assert (Hb : vsize (message_digits (xmss_wots xp) msg) = len (xmss_wots xp))
    by (apply message_digits_size; assumption).
  assert (Hlen0 : 0 <= len (xmss_wots xp)) by (unfold len; lia).
  rewrite pkfs_unfold by exact Hlmax.
  pose proof (pkfs_rounds (xmss_wots xp) (message_digits (xmss_wots xp) msg)
                seed adrs (Z.to_nat (len (xmss_wots xp))) 0 sig adrs
                (message_digits_nonneg (xmss_wots xp) msg Hok)) as Hr.
  rewrite Z2Nat.id in Hr by assumption.
  specialize (Hr ltac:(lia) ltac:(lia) ltac:(lia) ltac:(repeat split)).
  destruct (for_each _ (seqZ 0 (len (xmss_wots xp))) (sig, adrs))
    as [[pk adrs']|e].
  - exists pk, adrs'. reflexivity.
  - destruct Hr as (_ & j & x & _ & Hx & Hbig).
    eapply Forall_lookup_1 in Hsized; [|exact Hx]. simpl in Hsized.
    unfold xmss_element_size in Hsized. lia.
Qed.

(** The WOTS+ signature made for a leaf. *)
Lemma wots_sign_strings key msg adrs :
  wots_params_ok (xmss_wots xp) ->
  exists sig adrs',
    wots_sign xp key msg adrs = Ok (sig, adrs')
    /\ vsize sig = len (xmss_wots xp)
    /\ forall j : nat, Z.of_nat j < len (xmss_wots xp) ->
         exists d y,
           message_digits (xmss_wots xp) msg !! j = Some d
           /\ chain_value (xmss_wots xp) (wots_secret xp key adrs (Z.of_nat j))
                0 d (set_chain_address (Z.of_nat j) adrs) (public_seed key)
              = Ok y
           /\ vsize y = xmss_element_size xp
           /\ sig !! j = Some y.
Proof.
  intros Hok. pose proof Hok as (Hn & Hw & Hl1 & Hl2 & Hlmax).
  assert (Hb : vsize (message_digits (xmss_wots xp) msg) = len (xmss_wots xp))
    by (apply message_digits_size; assumption).
  assert (Hlen0 : 0 <= len (xmss_wots xp)) by (unfold len; lia).
  rewrite wots_sign_unfold by exact Hlmax.
  destruct (wots_sign_rounds key (message_digits (xmss_wots xp) msg) adrs
              (Z.to_nat (len (xmss_wots xp))) 0 [] adrs)
    as (tail & a' & Hrun & Hlen & Hel); [lia|lia|repeat split|].
  rewrite Z2Nat.id in Hrun by exact Hlen0.
  exists tail, a'. split; [exact Hrun|].
  split; [unfold vsize; rewrite Hlen; lia|].
  intros j Hj. destruct (Hel j) as (d & y & Hd & Hv & Hy & Ht); [lia|].
  exists d, y. rewrite Z.add_0_l in Hv. simpl in Hd.
  split; [exact Hd|]. split; [exact Hv|]. split; [exact Hy|exact Ht].
Qed.

Lemma initialize_sets_flag this this' :
  initialize xp this = (Ok (), this') -> m_is_initialized this' = true.
Proof.
  unfold initialize. destruct (m_is_initialized this) eqn:E.
  - intros [= <-]. exact E.
  - destruct (reserve_unused_leaf_index xp (m_priv_key this))
      as [[i|e] key]; [|discriminate].
    intros [= <-]. reflexivity.
Qed.

Lemma reserve_next key i :
  unused_leaf_index key = i -> i < 2 ^ tree_height xp ->
  reserve_unused_leaf_index xp key = (Ok i, set_unused_leaf_index (i + 1) key).
Proof.
  intros <- Hlt. unfold reserve_unused_leaf_index.
  destruct (Z.leb_spec (2 ^ tree_height xp) (unused_leaf_index key)); [lia|].
  reflexivity.
Qed.

(** One signing cycle on a signer that is not initialized: [update]
    reserves the leaf, [sign] signs with it and hands the signer back
    uninitialized, the advanced key inside. *)
Lemma signing_cycle {R : Type} (rng : R) msg this i key :
  xmss_params_ok xp -> m_is_initialized this = false ->
  reserve_unused_leaf_index xp (m_priv_key this) = (Ok i, key) ->
  exists this1 s this2,
    update xp msg this = (Ok (), this1)
    /\ sign xp rng this1 = (Ok s, this2, rng)
    /\ take 4 s = toByte i 4
    /\ m_priv_key this2 = key /\ m_is_initialized this2 = false
    /\ m_leaf_idx this2 = i.
Proof.
  intros Hok E Hres.
  assert (Hupd : exists h r,
             update xp msg this = (Ok (), mkSigner key r i true h)).
  { unfold update, initialize. rewrite E, Hres. eexists _, _. reflexivity. }
  destruct Hupd as (h & r & Hupd).
  destruct (generate_tree_signature_ok xp (mkSigner key r i true (mkHash []))
              (hash_fn (m_msg_hash h)) key zero_address Hok)
    as (sig_ots & auth_path & adrs' & Hts & _).
  exists (mkSigner key r i true h),
         (toByte i 4 ++ r ++ mjoin sig_ots ++ mjoin auth_path),
         (mkSigner key r i false (mkHash [])).
  split; [exact Hupd|]. split.
  - unfold sign.
    rewrite (initialize_done xp (mkSigner key r i true h) eq_refl).
    unfold Hash.h_msg_final.
    cbn [m_hash m_priv_key m_randomness m_leaf_idx m_is_initialized].
    unfold sign_msg. rewrite Hts. reflexivity.
  - split; [|repeat split].
    apply take_app_length'. rewrite toByte_length by lia. reflexivity.
Qed.

(** The WOTS+ part of a tree signature, run through recovery. *)
Lemma tree_signature_recovery this msg key adrs ts adrs' :
  xmss_params_ok xp ->
  generate_tree_signature xp this msg key adrs = Ok (ts, adrs') ->
  let wp := xmss_wots xp in
  let ots := set_ots_address (m_leaf_idx this)
               (set_type OTS_Hash_Address adrs) in
  exists pk adrs'',
    pub_key_from_signature wp msg (m_ots_sig ts) ots (public_seed key)
    = Ok (pk, adrs'')
    /\ vsize pk = len wp
    /\ forall j : nat, Z.of_nat j < len wp ->
         exists y,
           pk !! j = Some y
           /\ chain_value wp (wots_secret xp key ots (Z.of_nat j)) 0
                (wots_parameter wp - 1) (set_chain_address (Z.of_nat j) ots)
                (public_seed key)
              = Ok y.
Proof.
  intros [Hw Hh] Hgen wp ots. unfold generate_tree_signature in Hgen.
  destruct (build_auth_path_levels xp this key adrs Hh)
    as (auth & Hauth & _). rewrite Hauth in Hgen. simpl in Hgen.
  change (set_ots_address (m_leaf_idx this)
            (set_type OTS_Hash_Address (set_type Hash_Tree_Address adrs)))
    with ots in Hgen.
  destruct (wots_sign_strings key msg ots Hw)
    as (sig & a1 & Hsign & Hsz & Hel).
  rewrite Hsign in Hgen. simpl in Hgen. injection Hgen as <- <-.
  cbn [m_ots_sig].
  assert (Hsized : Forall (fun x => vsize x <= xmss_element_size xp) sig).
  { apply Forall_lookup_2. intros j x Hx.
    assert (Hj : Z.of_nat j < len (xmss_wots xp)).
    { apply lookup_lt_Some in Hx. unfold vsize in Hsz. lia. }
    destruct (Hel j Hj) as (d & y & _ & _ & Hy & Hs).
    assert (x = y) by congruence. subst x. lia. }
  destruct (pkfs_sized_returns msg sig ots (public_seed key) Hw
              ltac:(lia) Hsized) as (pk & a2 & Hrun).
  exists pk, a2. split; [exact Hrun|].
  destruct (pkfs_returns (xmss_wots xp) msg sig ots (public_seed key) pk a2
              Hw ltac:(lia) Hrun) as (Hlen & _).
  split; [unfold vsize, wp in *; lia|].
  intros j Hj. destruct (Hel j Hj) as (d & y & Hd & Hv & _ & Hs).
  apply (pkfs_completes (xmss_wots xp) msg sig ots (public_seed key) pk a2 j
           (wots_secret xp key ots (Z.of_nat j)) d y
           (set_chain_address (Z.of_nat j) ots) Hw ltac:(lia) Hrun Hj Hd
           (same_chain_context_refl _) Hv Hs).
Qed.


(** X15. Signing and recovery agree: from the WOTS+ signature that
    [generate_tree_signature] makes for a message, [pub_key_from_signature]
    run on the same message, the OTS address of the leaf and the public
    seed of the key returns the [len] strings at the ends of the full
    chains of [w - 1] rounds from the secret strings of the leaf.  These
    do not depend on the message. *)
Theorem tree_signature_recovers_public_key this msg key adrs ts adrs' :
  xmss_params_ok xp ->
  generate_tree_signature xp this msg key adrs = Ok (ts, adrs') ->
  let wp := xmss_wots xp in
  let ots := set_ots_address (m_leaf_idx this)
               (set_type OTS_Hash_Address adrs) in
  exists pk adrs'',
    pub_key_from_signature wp msg (m_ots_sig ts) ots (public_seed key)
    = Ok (pk, adrs'')
    /\ vsize pk = len wp
    /\ forall j : nat, Z.of_nat j < len wp ->
         exists y,
           pk !! j = Some y
           /\ chain_value wp (wots_secret xp key ots (Z.of_nat j)) 0
                (wots_parameter wp - 1) (set_chain_address (Z.of_nat j) ots)
                (public_seed key)
              = Ok y.
Proof. apply tree_signature_recovery. Qed.

(** X16. Keys recovered from the tree signatures of two messages made
    at the same leaf compare equal under [operator==]: the constructor
    from a message and its signature returns for both, with the seed it
    was given, and the key data are the same. *)
Theorem recovered_keys_compare_equal this msg1 msg2 key adrs ts1 ts2 a1 a2 :
  xmss_params_ok xp ->
  generate_tree_signature xp this msg1 key adrs = Ok (ts1, a1) ->
  generate_tree_signature xp this msg2 key adrs = Ok (ts2, a2) ->
  let wp := xmss_wots xp in
  let ots := set_ots_address (m_leaf_idx this)
               (set_type OTS_Hash_Address adrs) in
  exists k1 k2 o1 o2,
    XMSS_WOTS_PublicKey_from_signature wp msg1 (m_ots_sig ts1) ots
      (public_seed key) = Ok (k1, o1)
    /\ XMSS_WOTS_PublicKey_from_signature wp msg2 (m_ots_sig ts2) ots
         (public_seed key) = Ok (k2, o2)
    /\ m_public_seed k1 = public_seed key
    /\ m_public_seed k2 = public_seed key
    /\ op_eq k1 k2 = true.
Proof.
  intros Hok Hg1 Hg2 wp ots.
  destruct (tree_signature_recovery this msg1 key adrs ts1 a1 Hok Hg1)
    as (pk1 & o1 & Hr1 & Hsz1 & Hel1).
  destruct (tree_signature_recovery this msg2 key adrs ts2 a2 Hok Hg2)
    as (pk2 & o2 & Hr2 & Hsz2 & Hel2).
  fold wp ots in Hr1, Hr2.
  exists (mkWotsPublicKey wp pk1 (public_seed key)),
         (mkWotsPublicKey wp pk2 (public_seed key)), o1, o2.
  unfold XMSS_WOTS_PublicKey_from_signature. rewrite Hr1, Hr2.
  split; [reflexivity|]. split; [reflexivity|].
  split; [reflexivity|]. split; [reflexivity|].
  unfold op_eq. cbn [m_key].
  apply vector_eqb_eq; [intros x y; apply vector_eqb_eq, Z.eqb_eq|].
  apply list_eq. intros j.
  destruct (Z.lt_ge_cases (Z.of_nat j) (len (xmss_wots xp))) as [Hlt|Hge].
  - destruct (Hel1 j Hlt) as (y1 & -> & Hv1).
    destruct (Hel2 j Hlt) as (y2 & -> & Hv2). congruence.
  - unfold vsize in *. rewrite !lookup_ge_None_2 by lia. reflexivity.
Qed.

(** X17. [update] streams: feeding a message in two calls leaves the
    signer as feeding it in one, the leaf being reserved by the first
    call only. *)
Theorem update_streams m1 m2 this0 this1 :
  update xp m1 this0 = (Ok (), this1) ->
  update xp m2 this1 = update xp (m1 ++ m2) this0.
Proof.
  unfold update.
  destruct (initialize xp this0) as [[[]|e] t] eqn:E; [|discriminate].
  intros [= <-]. pose proof (initialize_sets_flag this0 t E) as Hflag.
  rewrite initialize_done by exact Hflag. simpl.
  unfold Hash.h_msg_update. simpl. rewrite app_assoc. reflexivity.
Qed.

(** X18. [sign] on a signer [update] was never called on reserves the
    leaf itself and signs the empty message: the hash of the bare H_msg
    prefix [toByte(2, n) || r || root || toByte(i, n)].  The signer comes
    back uninitialized, with the advanced key, [i] and [r]. *)
Theorem sign_without_update {R : Type} (rng : R) this i key :
  xmss_params_ok xp -> m_is_initialized this = false ->
  reserve_unused_leaf_index xp (m_priv_key this) = (Ok i, key) ->
  let n := xmss_element_size xp in
  let r := Hash.prf (prf key) (toByte i 32) in
  let msg_hash := hash_fn (toByte 2 n ++ r ++ root key ++ toByte i n) in
  exists ts adrs',
    generate_tree_signature xp (mkSigner key r i true (mkHash [])) msg_hash
      key zero_address = Ok (ts, adrs')
    /\ sign xp rng this
       = (Ok (toByte i 4 ++ r ++ mjoin (m_ots_sig ts) ++ mjoin (m_auth_path ts)),
          mkSigner key r i false (mkHash []), rng).
Proof.
  intros Hok E Hres n r msg_hash.
  destruct (generate_tree_signature_ok xp (mkSigner key r i true (mkHash []))
              msg_hash key zero_address Hok)
    as (sig_ots & auth_path & adrs' & Hts & _).
  exists (mkTreeSignature sig_ots auth_path), adrs'. split; [exact Hts|].
  unfold sign, initialize. rewrite E, Hres.
  unfold concat, Hash.h_msg_init, Hash.h_msg_final.
  cbn [m_hash m_priv_key m_randomness m_leaf_idx m_is_initialized
       m_msg_hash app].
  unfold sign_msg. subst msg_hash r n. rewrite Hts. reflexivity.
Qed.

(** X19. Two signing cycles in a row never share a leaf: the second
    [update] reserves anew, the two signatures start with the indices
    [i] and [i + 1], so they differ, and the counter of the key inside
    the signer has moved by two. *)
Theorem successive_signatures_use_fresh_leaves {R : Type} (rng : R) m1 m2 this :
  xmss_params_ok xp -> m_is_initialized this = false ->
  let i := unused_leaf_index (m_priv_key this) in
  0 <= i -> i + 1 < 2 ^ tree_height xp ->
  exists this1 s1 this2 this3 s2 this4,
    update xp m1 this = (Ok (), this1)
    /\ sign xp rng this1 = (Ok s1, this2, rng)
    /\ update xp m2 this2 = (Ok (), this3)
    /\ sign xp rng this3 = (Ok s2, this4, rng)
    /\ take 4 s1 = toByte i 4 /\ take 4 s2 = toByte (i + 1) 4
    /\ s1 <> s2
    /\ unused_leaf_index (m_priv_key this4) = i + 2.
Proof.
  intros Hok E i Hi0 Hi1.
  destruct (signing_cycle rng m1 this i
              (set_unused_leaf_index (i + 1) (m_priv_key this)) Hok E
              (reserve_next _ i eq_refl ltac:(lia)))
    as (t1 & s1 & t2 & Hu1 & Hs1 & Hb1 & Hk2 & Hf2 & _).
  destruct (signing_cycle rng m2 t2 (i + 1)
              (set_unused_leaf_index (i + 1 + 1) (m_priv_key t2)) Hok Hf2)
    as (t3 & s2 & t4 & Hu2 & Hs2 & Hb2 & Hk4 & _).
  { apply reserve_next; [rewrite Hk2; reflexivity|lia]. }
  exists t1, s1, t2, t3, s2, t4.
  split; [exact Hu1|]. split; [exact Hs1|]. split; [exact Hu2|].
  split; [exact Hs2|]. split; [exact Hb1|]. split; [exact Hb2|]. split.
  - intros Heq. rewrite Heq, Hb2 in Hb1.
    destruct Hok as [_ Hh].
    assert (2 ^ tree_height xp <= 2 ^ 31) by (apply Z.pow_le_mono_r; lia).
    apply toByte_4_inj in Hb1; lia.
  - rewrite Hk4. simpl. lia.
Qed.

End SignAndRecover.

(** ** Equality of keys, again *)

Lemma op_eq_iff (a b : XMSS_WOTS_PublicKey) :
  op_eq a b = true <-> m_key a = m_key b.
Proof.
  unfold op_eq. apply vector_eqb_eq. intros x y. apply vector_eqb_eq, Z.eqb_eq.
Qed.

(** X20. [operator==] is an equivalence on WOTS+ public keys; it does
    not see [set_public_seed], and after [set_key_data] it holds exactly
    for the keys with the data set. *)
Theorem op_eq_equivalence (a b c : XMSS_WOTS_PublicKey) :
  op_eq a a = true
  /\ op_eq a b = op_eq b a
  /\ (op_eq a b = true -> op_eq b c = true -> op_eq a c = true)
  /\ (forall seed, op_eq (set_public_seed seed a) b = op_eq a b)
  /\ (forall d, op_eq (set_key_data d a) b = true <-> d = key_data b).
Proof.
  split; [apply op_eq_iff; reflexivity|]. split.
  { apply eq_true_iff_eq. rewrite !op_eq_iff. split; congruence. }
  split.
  { rewrite !op_eq_iff. congruence. }
  split; [intros seed; reflexivity|].
  intros d. rewrite op_eq_iff. reflexivity.
Qed.

(** ** The further properties at the parameter set of the scenarios *)

Lemma is_size_t_small z : 0 <= z < 2 ^ 32 -> is_size_t z.
Proof. unfold is_size_t, SIZE_BITS. lia. Qed.

Lemma test_xmss_ok : xmss_params_ok test_xmss.
Proof. apply (supported_params_ok XMSS_SHA2_10_256). Qed.

Lemma chain_no_round_witness :
  chain test_wots [1; 2; 3] 16 5 zero_address test_seed
  = Ok ([1; 2; 3], zero_address).
Proof.
  apply (chain_no_round test_wots [1; 2; 3] 16 5 zero_address test_seed).
  - apply is_size_t_small. lia.
  - right. vm_compute. congruence.
Defined.

Lemma chain_split_witness :
  chain test_wots test_seed 3 (4 + 5) zero_address test_seed
  = '(y, adrs1) ← chain test_wots test_seed 3 4 zero_address test_seed;
    chain test_wots y (3 + 4) 5 adrs1 test_seed.
Proof.
  apply (chain_split test_wots test_seed 3 4 5 zero_address test_seed).
  - apply is_size_t_small. lia.
  - lia.
  - lia.
  - apply is_size_t_small. lia.
Defined.

Lemma chain_saturates_witness :
  chain test_wots test_seed 10 100 zero_address test_seed
  = chain test_wots test_seed 10 (wots_parameter test_wots - 10) zero_address
      test_seed.
Proof.
  apply (chain_saturates test_wots test_seed 10 100 zero_address test_seed).
  - apply is_size_t_small. lia.
  - apply is_size_t_small. lia.
  - apply is_size_t_small. vm_compute. split; congruence.
  - vm_compute. congruence.
  - vm_compute. congruence.
Defined.

Lemma chain_output_size_witness :
  exists y adrs',
    chain test_wots test_seed 2 3 zero_address test_seed = Ok (y, adrs')
    /\ vsize y = element_size test_wots.
Proof.
  destruct (chain_output_size test_wots test_seed 2 3 zero_address test_seed)
    as (y & adrs' & Hrun & _ & Hsz).
  - apply is_size_t_small. lia.
  - vm_compute. congruence.
  - exists y, adrs'. split; [exact Hrun|]. apply Hsz. reflexivity.
Defined.

Lemma chain_overread_iff_witness :
  chain test_wots (replicate 33 0) 0 1 zero_address test_seed
  = Err BufferOverread.
Proof.
  apply (chain_overread_iff test_wots (replicate 33 0) 0 1 zero_address
           test_seed BufferOverread).
  - apply is_size_t_small. lia.
  - apply is_size_t_small. lia.
  - apply is_size_t_small. lia.
  - split; [reflexivity|]. split; [vm_compute; reflexivity|].
    split; [lia|vm_compute; reflexivity].
Defined.

Lemma chain_final_address_witness :
  exists y,
    chain test_wots test_seed 2 3 zero_address test_seed
    = Ok (y, set_key_mask_mode Key_Mode (set_hash_address 4 zero_address)).
Proof.
  destruct (chain_ok test_wots test_seed 2 3 zero_address test_seed)
    as (y & adrs' & Hrun & _); [lia|vm_compute; congruence|].
  exists y. rewrite Hrun.
  rewrite (chain_final_address test_wots test_seed 2 3 zero_address test_seed
             y adrs'); [reflexivity|..|exact Hrun].
  - apply is_size_t_small. lia.
  - apply is_size_t_small. lia.
  - apply is_size_t_small. lia.
  - lia.
  - vm_compute. reflexivity.
Defined.

Lemma pub_key_from_signature_overread_iff_witness :
  pub_key_from_signature test_wots [1; 2; 3]
    (<[0%nat := replicate 33 0]> test_sig) zero_address test_seed
  = Err BufferOverread.
Proof.
  apply (pub_key_from_signature_overread_iff test_wots [1; 2; 3]
           (<[0%nat := replicate 33 0]> test_sig) zero_address test_seed
           BufferOverread wots_params_test).
  - vm_compute. congruence.
  - split; [reflexivity|]. exists 0%nat, (replicate 33 0), 0.
    split; [vm_compute; reflexivity|]. split; [vm_compute; reflexivity|].
    split; [vm_compute; reflexivity|].
    split; vm_compute; reflexivity.
Defined.

Lemma test_sig_longer_sized :
  Forall (fun x : secure_vector => vsize x <= xmss_element_size test_xmss)
         (test_sig ++ [[9]]).
Proof.
  apply Forall_app. split; [exact test_sig_sized|].
  apply Forall_cons. split; [vm_compute; congruence|apply Forall_nil_2].
Qed.

Lemma pub_key_from_signature_keeps_tail_witness :
  exists pk adrs',
    pub_key_from_signature test_wots [1; 2; 3] (test_sig ++ [[9]]) zero_address
      test_seed = Ok (pk, adrs')
    /\ vsize pk = 68 /\ pk !! 67%nat = Some [9].
Proof.
  destruct (pkfs_sized_returns test_xmss [1; 2; 3] (test_sig ++ [[9]])
              zero_address test_seed wots_params_test)
    as (pk & adrs' & Hrun); [vm_compute; congruence|exact test_sig_longer_sized|].
  exists pk, adrs'. split; [exact Hrun|].
  destruct (pub_key_from_signature_keeps_tail test_wots [1; 2; 3]
              (test_sig ++ [[9]]) zero_address test_seed pk adrs'
              wots_params_test) as (Hsz & _ & Htail).
  - vm_compute. congruence.
  - exact Hrun.
  - split; [exact Hsz|]. rewrite Htail; [reflexivity|].
    vm_compute. congruence.
Defined.

Lemma pub_key_from_signature_final_address_witness :
  exists pk adrs',
    pub_key_from_signature test_wots [1; 2; 3] test_sig zero_address test_seed
    = Ok (pk, adrs')
    /\ adrs_w5 adrs' = 66.
Proof.
  destruct (pkfs_sized_returns test_xmss [1; 2; 3] test_sig zero_address
              test_seed wots_params_test)
    as (pk & adrs' & Hrun); [vm_compute; congruence|exact test_sig_sized|].
  exists pk, adrs'. split; [exact Hrun|].
  destruct (pub_key_from_signature_final_address test_wots [1; 2; 3] test_sig
              zero_address test_seed pk adrs' wots_params_test)
    as (_ & _ & _ & _ & _ & H5).
  - vm_compute. reflexivity.
  - exact Hrun.
  - exact H5.
Defined.

Lemma pub_key_from_signature_completes_chain_witness :
  exists pk adrs' y,
    pub_key_from_signature test_wots [1; 2; 3] test_sig zero_address test_seed
    = Ok (pk, adrs')
    /\ pk !! 0%nat = Some y
    /\ chain_value test_wots (replicate 32 0) 0 (wots_parameter test_wots - 1)
         zero_address test_seed = Ok y.
Proof.
  destruct (pkfs_sized_returns test_xmss [1; 2; 3] test_sig zero_address
              test_seed wots_params_test)
    as (pk & adrs' & Hrun); [vm_compute; congruence|exact test_sig_sized|].
  destruct (pub_key_from_signature_completes_chain test_wots [1; 2; 3] test_sig
              zero_address test_seed pk adrs' 0%nat (replicate 32 0) 0
              (replicate 32 0) zero_address wots_params_test)
    as (y & Hy & Hv).
  - vm_compute. congruence.
  - exact Hrun.
  - vm_compute. reflexivity.
  - vm_compute. reflexivity.
  - vm_compute. repeat split.
  - vm_compute. reflexivity.
  - vm_compute. reflexivity.
  - exists pk, adrs', y. split; [exact Hrun|]. split; [exact Hy|exact Hv].
Defined.

Lemma pub_key_from_signature_top_digit_witness :
  exists pk adrs',
    pub_key_from_signature test_wots (replicate 32 255) test_sig zero_address
      test_seed = Ok (pk, adrs')
    /\ pk !! 0%nat = Some (replicate 32 0).
Proof.
  destruct (pkfs_sized_returns test_xmss (replicate 32 255) test_sig
              zero_address test_seed wots_params_test)
    as (pk & adrs' & Hrun); [vm_compute; congruence|exact test_sig_sized|].
  exists pk, adrs'. split; [exact Hrun|].
  rewrite (pub_key_from_signature_top_digit test_wots (replicate 32 255)
             test_sig zero_address test_seed pk adrs' 0%nat wots_params_test).
  - vm_compute. reflexivity.
  - vm_compute. congruence.
  - exact Hrun.
  - vm_compute. reflexivity.
  - vm_compute. reflexivity.
Defined.

Lemma build_auth_path_siblings_witness :
  exists auth,
    build_auth_path test_xmss
      (mkSigner test_key [] 5 true (mkHash [])) test_key zero_address
    = Ok (auth, set_type Hash_Tree_Address zero_address)
    /\ auth !! 1%nat
       = Some (tree_hash test_key 6 1 (set_type Hash_Tree_Address zero_address)).
Proof.
  destruct (build_auth_path_siblings test_xmss
              (mkSigner test_key [] 5 true (mkHash [])) test_key zero_address)
    as (auth & Hrun & Hnodes).
  - vm_compute. split; congruence.
  - vm_compute. split; [congruence|reflexivity].
  - exists auth. split; [exact Hrun|].
    destruct (Hnodes 1) as (Hnode & _); [vm_compute; split; [congruence|reflexivity]|].
    exact Hnode.
Defined.

Lemma build_auth_path_shared_levels_witness :
  exists auth1 auth2 a1 a2,
    build_auth_path test_xmss
      (mkSigner test_key [] 4 true (mkHash [])) test_key zero_address
    = Ok (auth1, a1)
    /\ build_auth_path test_xmss
         (mkSigner test_key [1] 5 false (mkHash [2])) test_key zero_address
       = Ok (auth2, a2)
    /\ auth1 !! 1%nat = auth2 !! 1%nat.
Proof.
  destruct (build_auth_path_levels test_xmss
              (mkSigner test_key [] 4 true (mkHash [])) test_key zero_address)
    as (auth1 & Hrun1 & _); [vm_compute; split; congruence|].
  destruct (build_auth_path_levels test_xmss
              (mkSigner test_key [1] 5 false (mkHash [2])) test_key zero_address)
    as (auth2 & Hrun2 & _); [vm_compute; split; congruence|].
  exists auth1, auth2, (set_type Hash_Tree_Address zero_address),
         (set_type Hash_Tree_Address zero_address).
  split; [exact Hrun1|]. split; [exact Hrun2|].
  destruct (build_auth_path_shared_levels test_xmss
              (mkSigner test_key [] 4 true (mkHash []))
              (mkSigner test_key [1] 5 false (mkHash [2])) test_key zero_address
              auth1 auth2 (set_type Hash_Tree_Address zero_address)
              (set_type Hash_Tree_Address zero_address) 1)
    as (_ & Hshared).
  - vm_compute. split; congruence.
  - lia.
  - vm_compute. reflexivity.
  - exact Hrun1.
  - exact Hrun2.
  - apply Hshared. lia.
Defined.

Lemma build_auth_path_reads_tree_words_witness :
  build_auth_path test_xmss
    (mkSigner test_key [] 5 true (mkHash [])) test_key zero_address
  = build_auth_path test_xmss
      (mkSigner test_key [] 5 true (mkHash [])) test_key
      (set_chain_address 3 (set_ots_address 7 zero_address)).
Proof.
  apply (build_auth_path_reads_tree_words test_xmss); reflexivity.
Defined.

Lemma tree_signature_recovers_public_key_witness :
  exists ts adrs' pk adrs'',
    generate_tree_signature test_xmss
      (mkSigner test_key [] 5 true (mkHash [])) [1; 2; 3] test_key zero_address
    = Ok (ts, adrs')
    /\ pub_key_from_signature test_wots [1; 2; 3] (m_ots_sig ts)
         (set_ots_address 5 (set_type OTS_Hash_Address zero_address))
         (public_seed test_key) = Ok (pk, adrs'')
    /\ vsize pk = len test_wots.
Proof.
  destruct (generate_tree_signature_ok test_xmss
              (mkSigner test_key [] 5 true (mkHash [])) [1; 2; 3] test_key
              zero_address test_xmss_ok)
    as (sig_ots & auth_path & adrs' & Hgen & _).
  destruct (tree_signature_recovers_public_key test_xmss _ _ _ _ _ _
              test_xmss_ok Hgen) as (pk & adrs'' & Hrun & Hsz & _).
  exists (mkTreeSignature sig_ots auth_path), adrs', pk, adrs''.
  split; [exact Hgen|]. split; [exact Hrun|exact Hsz].
Defined.

Lemma recovered_keys_compare_equal_witness :
  exists ts1 ts2 a1 a2 k1 k2 o1 o2,
    generate_tree_signature test_xmss
      (mkSigner test_key [] 5 true (mkHash [])) [1; 2; 3] test_key zero_address
    = Ok (ts1, a1)
    /\ generate_tree_signature test_xmss
         (mkSigner test_key [] 5 true (mkHash [])) [4; 5] test_key zero_address
       = Ok (ts2, a2)
    /\ XMSS_WOTS_PublicKey_from_signature test_wots [1; 2; 3] (m_ots_sig ts1)
         (set_ots_address 5 (set_type OTS_Hash_Address zero_address))
         (public_seed test_key) = Ok (k1, o1)
    /\ XMSS_WOTS_PublicKey_from_signature test_wots [4; 5] (m_ots_sig ts2)
         (set_ots_address 5 (set_type OTS_Hash_Address zero_address))
         (public_seed test_key) = Ok (k2, o2)
    /\ op_eq k1 k2 = true.
Proof.
  destruct (generate_tree_signature_ok test_xmss
              (mkSigner test_key [] 5 true (mkHash [])) [1; 2; 3] test_key
              zero_address test_xmss_ok)
    as (s1 & p1 & a1 & Hg1 & _).
  destruct (generate_tree_signature_ok test_xmss
              (mkSigner test_key [] 5 true (mkHash [])) [4; 5] test_key
              zero_address test_xmss_ok)
    as (s2 & p2 & a2 & Hg2 & _).
  destruct (recovered_keys_compare_equal test_xmss _ _ _ _ _ _ _ _ _
              test_xmss_ok Hg1 Hg2)
    as (k1 & k2 & o1 & o2 & Hk1 & Hk2 & _ & _ & Heq).
  exists (mkTreeSignature s1 p1), (mkTreeSignature s2 p2), a1, a2, k1, k2, o1, o2.
  split; [exact Hg1|]. split; [exact Hg2|]. split; [exact Hk1|].
  split; [exact Hk2|exact Heq].
Defined.

Lemma update_streams_witness :
  let this0 := XMSS_Signature_Operation_new test_key in
  update test_xmss [98] (snd (update test_xmss [97] this0))
  = update test_xmss [97; 98] this0.
Proof.
  intros this0.
  apply (update_streams test_xmss [97] [98] this0
           (snd (update test_xmss [97] this0))).
  vm_compute. reflexivity.
Defined.

Lemma sign_without_update_witness :
  let r := Hash.prf (prf test_key) (toByte 0 32) in
  exists signature,
    sign test_xmss () (XMSS_Signature_Operation_new test_key)
    = (Ok signature,
       mkSigner (set_unused_leaf_index 1 test_key) r 0 false (mkHash []), ()).
Proof.
  intros r.
  destruct (sign_without_update test_xmss ()
              (XMSS_Signature_Operation_new test_key) 0
              (set_unused_leaf_index 1 test_key) test_xmss_ok eq_refl eq_refl)
    as (ts & adrs' & _ & Hsign).
  eexists. exact Hsign.
Defined.

Lemma successive_signatures_use_fresh_leaves_witness :
  exists this1 s1 this2 this3 s2 this4,
    update test_xmss [97] (XMSS_Signature_Operation_new test_key)
    = (Ok (), this1)
    /\ sign test_xmss () this1 = (Ok s1, this2, ())
    /\ update test_xmss [98] this2 = (Ok (), this3)
    /\ sign test_xmss () this3 = (Ok s2, this4, ())
    /\ s1 <> s2.
Proof.
  destruct (successive_signatures_use_fresh_leaves test_xmss () [97] [98]
              (XMSS_Signature_Operation_new test_key) test_xmss_ok eq_refl)
    as (t1 & s1 & t2 & t3 & s2 & t4 & H1 & H2 & H3 & H4 & _ & _ & Hne & _).
  - vm_compute. congruence.
  - vm_compute. reflexivity.
  - exists t1, s1, t2, t3, s2, t4.
    split; [exact H1|]. split; [exact H2|]. split; [exact H3|].
    split; [exact H4|exact Hne].
Defined.
